(** * An in-memory LFU cache with per-entry expiration

    Shallow embedding of [src/in_memory_lfu.go] (package [lfu]).

    - [map[string]Item] is a [gmap string Item]; the frequency index
      [map[uint64]map[string]struct{}] is a [gmap Z (gset string)].  Every
      bucket is created by its own [make], so no two indices share a
      bucket and value semantics is faithful.
    - [uint64] is [Z] with the wrap-around of [+ 1] written out
      ([u64_succ]); [int] and [time.Duration] are [Z].
    - [time.Time] is a reading of the monotonic clock in nanoseconds, a
      [Z]; [After] is [<] read from the right and [Add] is [+].  Every call
      of [time.Now()] is an input of the operation that makes it.
    - [interface{}] is an abstract type [V] with a distinguished [nil].  A
      stored value may be a reference: what the callbacks of [Update] read
      and write through it lives in an abstract [Heap].
    - The mutex makes every public method and every sweeper tick atomic:
      an operation is a function on cache states.
    - The order in which [range] walks a Go map is unspecified: operations
      that iterate take the sequence of visits (or the key yielded first)
      as an input. *)

From stdpp Require Import gmap strings list fin_maps.
From Stdlib Require Import ZArith Lia.

Local Open Scope Z_scope.
#[local] Set Warnings "-clear-no-such-hyp".
#[local] Set Default Proof Using "Type".

(** ** Machine integers and time *)

Definition MaxUint64 : Z := 18446744073709551615.

(** [f + 1] on [uint64]. *)
Definition u64_succ (f : Z) : Z := (f + 1) mod 2 ^ 64.

Definition Time : Type := Z.
Definition Duration : Type := Z.

Section Cache.

(** The dynamic type [interface{}] and its [nil]. *)
Context {V : Type} (nil : V).

(** ** Data *)

Record Item : Type := mkItem {
  Value : V;
  Expiration : Time;
  Frequency : Z
}.

Record InMemoryCache : Type := mkCache {
  items : gmap string Item;
  freqGroup : gmap Z (gset string);
  minFreq : Z;
  defaultExpiration : Duration;
  cleanupInterval : Duration;
  size : Z
}.

Definition with_items (m : gmap string Item) (c : InMemoryCache) : InMemoryCache :=
  mkCache m (freqGroup c) (minFreq c) (defaultExpiration c) (cleanupInterval c) (size c).

Definition with_freqGroup (g : gmap Z (gset string)) (c : InMemoryCache) : InMemoryCache :=
  mkCache (items c) g (minFreq c) (defaultExpiration c) (cleanupInterval c) (size c).

Definition with_minFreq (f : Z) (c : InMemoryCache) : InMemoryCache :=
  mkCache (items c) (freqGroup c) f (defaultExpiration c) (cleanupInterval c) (size c).

Definition with_Frequency (f : Z) (i : Item) : Item :=
  mkItem (Value i) (Expiration i) f.

Definition with_Expiration (e : Time) (i : Item) : Item :=
  mkItem (Value i) e (Frequency i).

(** The zero value of [Item], which indexing [c.items] yields at a missing
    key. *)
Definition zeroItem : Item := mkItem nil 0 0.

(** [len(m)] on a Go map. *)
Definition len {K A} `{Countable K} (m : gmap K A) : Z := Z.of_nat (base.size m).

(** [c.freqGroup[f]]: a missing index yields the nil map, which reads as
    the empty set. *)
Definition bucket (c : InMemoryCache) (f : Z) : gset string :=
  default ∅ (freqGroup c !! f).

(** [c.items[key]] as a value. *)
Definition itemAt (c : InMemoryCache) (key : string) : Item :=
  default zeroItem (items c !! key).

(** ** Operations *)

(** [i.isExpired()], where [now] is what [time.Now()] returns. *)
Definition isExpired (now : Time) (i : Item) : bool :=
  bool_decide (Expiration i < now).

Definition NewInMemoryCache (sz : Z) (defaultExp cleanup : Duration) : InMemoryCache :=
  mkCache ∅ ∅ 1 defaultExp cleanup sz.

Definition getExp (now : Time) (duration : Duration) (c : InMemoryCache) : Time :=
  let duration := if bool_decide (duration ≤ 0) then defaultExpiration c else duration in
  now + duration.

(** [delete(c.freqGroup[f], key)]: a no-op on a missing bucket. *)
Definition removeFromBucket (f : Z) (key : string) (g : gmap Z (gset string))
  : gmap Z (gset string) :=
  match g !! f with
  | Some b => <[f := b ∖ {[key]}]> g
  | None => g
  end.

Definition deleteItemInGroup (item : Item) (key : string) (c : InMemoryCache)
  : bool * InMemoryCache :=
  let f := Frequency item in
  let c1 := with_freqGroup (removeFromBucket f key (freqGroup c)) c in
  if bool_decide (base.size (bucket c1 f) = 0%nat) then
    (bool_decide (minFreq c1 = f), with_freqGroup (delete f (freqGroup c1)) c1)
  else (false, c1).

Definition upgradeItem (item : Item) (key : string) (c : InMemoryCache) : InMemoryCache :=
  let c := with_items (<[key := item]> (items c)) c in
  let newFreq := u64_succ (Frequency item) in
  let '(minChanged, c) := deleteItemInGroup item key c in
  let c := if minChanged then with_minFreq newFreq c else c in
  let item := with_Frequency newFreq item in
  let c :=
    match freqGroup c !! Frequency item with
    | Some _ => c
    | None => with_freqGroup (<[Frequency item := ∅]> (freqGroup c)) c
    end in
  let c := with_freqGroup
             (<[Frequency item := bucket c (Frequency item) ∪ {[key]}]> (freqGroup c)) c in
  with_items (<[key := item]> (items c)) c.

(** The loop [for keyToDelete := range c.freqGroup[c.minFreq] { ...; break }]:
    its body runs once, for the key [keyToDelete] that [range] yields first,
    and not at all on an empty or missing bucket. *)
Definition evict (keyToDelete : string) (c : InMemoryCache) : InMemoryCache :=
  if bool_decide (bucket c (minFreq c) = ∅) then c
  else
    let c := (deleteItemInGroup (itemAt c keyToDelete) keyToDelete c).2 in
    with_items (delete keyToDelete (items c)) c.

(** [Set]; the name is reserved in Rocq. *)
Definition Set_ (key : string) (value : V) (duration : Duration)
    (now : Time) (keyToDelete : string) (c : InMemoryCache) : InMemoryCache :=
  if bool_decide (size c ≤ 0) then c
  else
    let newItem := mkItem value (getExp now duration c) 0 in
    match items c !! key with
    | Some old => upgradeItem (with_Frequency (Frequency old) newItem) key c
    | None =>
      let c := if bool_decide (size c ≤ len (items c)) then evict keyToDelete c else c in
      let c := with_freqGroup (<[Frequency newItem := ∅]> (freqGroup c)) c in
      let c := with_freqGroup
                 (<[Frequency newItem := bucket c (Frequency newItem) ∪ {[key]}]>
                    (freqGroup c)) c in
      let c := with_minFreq (Frequency newItem) c in
      upgradeItem newItem key c
    end.

Definition Get (key : string) (now : Time) (c : InMemoryCache)
  : (V * bool) * InMemoryCache :=
  match items c !! key with
  | None => ((nil, false), c)
  | Some item =>
    if isExpired now item then ((nil, false), c)
    else ((Value item, true), upgradeItem item key c)
  end.

Definition findNewMinFreq (c : InMemoryCache) : Z :=
  map_fold (λ cur _ minFreq, if bool_decide (cur < minFreq) then cur else minFreq)
           MaxUint64 (freqGroup c).

(** The [error] result: [None] is [nil]. *)
Definition Delete (key : string) (c : InMemoryCache) : option string * InMemoryCache :=
  match items c !! key with
  | None => (Some "Key not found"%string, c)
  | Some item =>
    let c := with_items (delete key (items c)) c in
    let '(minChanged, c) := deleteItemInGroup item key c in
    let c := if minChanged then with_minFreq (findNewMinFreq c) c else c in
    (None, c)
  end.

(** *** Update

    The callbacks are caller code.  [isUpdated] reads the value and what it
    refers to; [update] receives the value itself, so it cannot replace the
    stored [item.Value] and acts on the heap only. *)
Section Update.
Context {Heap : Type}.
Variable isUpdated : V → Heap → bool.
Variable update : V → Heap → Heap.

(** One iteration of [for key, item := range c.items], [now] being the
    reading of the clock inside [item.isExpired()]. *)
Definition updateVisit (exp : Time) (st : InMemoryCache * Heap) (visit : string * Time)
  : InMemoryCache * Heap :=
  let '(c, h) := st in
  let '(key, now) := visit in
  match items c !! key with
  | None => st
  | Some item =>
    if isUpdated (Value item) h && negb (isExpired now item) then
      let h := update (Value item) h in
      let item := with_Expiration exp item in
      (upgradeItem item key c, h)
    else st
  end.

Definition Update (duration : Duration) (now : Time) (visits : list (string * Time))
    (st : InMemoryCache * Heap) : InMemoryCache * Heap :=
  let exp := getExp now duration st.1 in
  foldl (updateVisit exp) st visits.

End Update.

(** *** The sweeper *)

(** One iteration of the inner loop of [startGC]. *)
Definition gcVisit (st : InMemoryCache * bool) (visit : string * Time)
  : InMemoryCache * bool :=
  let '(c, isFindMin) := st in
  let '(key, now) := visit in
  match items c !! key with
  | None => st
  | Some item =>
    if isExpired now item then
      let c := with_items (delete key (items c)) c in
      let '(minChanged, c) := deleteItemInGroup item key c in
      (c, minChanged || isFindMin)
    else st
  end.

(** One tick of [startGC], between [c.Lock()] and [c.Unlock()]. *)
Definition gcTick (visits : list (string * Time)) (c : InMemoryCache) : InMemoryCache :=
  let '(c, isFindMin) := foldl gcVisit (c, false) visits in
  if isFindMin then with_minFreq (findNewMinFreq c) c else c.

(** ** Histories

    A history is a sequence of public operations and sweeper ticks, each
    with the inputs the environment supplies: clock readings, the key a
    [range] loop yields first, the order of a full [range] walk, and the
    heap [Update] runs against (caller code may change it between calls). *)
Section History.
Context {Heap : Type}.

Inductive Op : Type :=
| OpSet (key : string) (value : V) (duration : Duration) (now : Time) (keyToDelete : string)
| OpGet (key : string) (now : Time)
| OpDelete (key : string)
| OpUpdate (isUpdated : V → Heap → bool) (update : V → Heap → Heap)
    (duration : Duration) (now : Time) (visits : list (string * Time)) (h : Heap)
| OpTick (visits : list (string * Time)).

Definition step (c : InMemoryCache) (o : Op) : InMemoryCache :=
  match o with
  | OpSet key value duration now keyToDelete => Set_ key value duration now keyToDelete c
  | OpGet key now => (Get key now c).2
  | OpDelete key => (Delete key c).2
  | OpUpdate isUpdated update duration now visits h =>
    (Update isUpdated update duration now visits (c, h)).1
  | OpTick visits => gcTick visits c
  end.

(** The state after a history; the results and the heap are dropped. *)
Definition run (c : InMemoryCache) (ops : list Op) : InMemoryCache := foldl step c ops.

(** What Go guarantees of [range] over a map that the loop body does not
    grow: a loop that stops after one iteration gets a member of the map,
    a full walk meets every key once. *)
Definition rangeFirst (b : gset string) (k : string) : Prop := b ≠ ∅ → k ∈ b.

(** [visits] lists the keys in the order of the walk, each with the reading
    of the clock at its visit. *)
Definition rangeWalk (m : gmap string Item) (visits : list (string * Time)) : Prop :=
  NoDup visits.*1 ∧ list_to_set visits.*1 = dom m.

(** The inputs of an operation are ones the run time can supply in state
    [c].  The sweeper runs only when it was started, with a positive
    [cleanupInterval]. *)
Definition opOk (c : InMemoryCache) (o : Op) : Prop :=
  match o with
  | OpSet _ _ _ _ keyToDelete => rangeFirst (bucket c (minFreq c)) keyToDelete
  | OpGet _ _ | OpDelete _ => True
  | OpUpdate _ _ _ _ visits _ => rangeWalk (items c) visits
  | OpTick visits => 0 < cleanupInterval c ∧ rangeWalk (items c) visits
  end.

(** Every operation of the history is possible in the state it meets. *)
Fixpoint historyOk (c : InMemoryCache) (ops : list Op) : Prop :=
  match ops with
  | [] => True
  | o :: ops => opOk c o ∧ historyOk (step c o) ops
  end.

#[global] Instance rangeFirst_dec b k : Decision (rangeFirst b k).
Proof. unfold rangeFirst. apply _. Defined.

#[global] Instance rangeWalk_dec m visits : Decision (rangeWalk m visits).
Proof. unfold rangeWalk. apply _. Defined.

#[global] Instance opOk_dec c o : Decision (opOk c o).
Proof. destruct o; simpl; apply _. Defined.

#[global] Instance historyOk_dec c ops : Decision (historyOk c ops).
Proof. revert c. induction ops; simpl; intros; apply _. Defined.

End History.

End Cache.

Arguments Op : clear implicits.

(** ** Notions for the statements and the proofs *)

Section Notions.
Context {V : Type}.
Implicit Types (c : InMemoryCache (V := V)) (item it : Item (V := V)).
Implicit Types (key k : string) (f : Z).

(** The frequency index, read through membership and presence. *)
Definition inBucket c f k : Prop := k ∈ bucket c f.

Definition hasBucket c f : Prop := is_Some (freqGroup c !! f).

(** The removal that [Delete], the sweeper and the eviction share:
    [delete(c.items, key)] and [deleteItemInGroup(item, key)]. *)
Definition removeKey item key c : InMemoryCache :=
  (deleteItemInGroup item key (with_items (delete key (items c)) c)).2.

(** The tail of [Set] for a key that is not stored: a fresh singleton
    bucket 0, [minFreq] 0, and the bump. *)
Definition insertNew key item c : InMemoryCache :=
  upgradeItem item key
    (with_minFreq (Frequency item)
       (with_freqGroup (<[Frequency item := {[key]}]> (freqGroup c)) c)).

(** The condition under which [deleteItemInGroup] returns [true]: the bucket
    of the item is the one at [minFreq] and the key was its last. *)
Definition minBucketEmptied item key c : Prop :=
  minFreq c = Frequency item ∧ bucket c (Frequency item) ∖ {[key]} = ∅.

(** *** Invariants of the representation *)

(** A key listed in bucket [f] is stored, with frequency [f]. *)
Definition bucketsSound c : Prop :=
  ∀ f k, inBucket c f k → ∃ it, items c !! k = Some it ∧ Frequency it = f.

(** The index holds no empty bucket. *)
Definition bucketsNonEmpty c : Prop :=
  ∀ f, hasBucket c f → ∃ k, inBucket c f k.

(** A stored key is listed in the bucket of its frequency. *)
Definition bucketsComplete c : Prop :=
  ∀ k it, items c !! k = Some it → inBucket c (Frequency it) k.

(** [minFreq] is the least index of the frequency index. *)
Definition minExact c : Prop :=
  items c ≠ ∅ → hasBucket c (minFreq c) ∧ ∀ f, hasBucket c f → minFreq c ≤ f.

(** Every stored frequency lies between [lo] and [hi]. *)
Definition freqsWithin (lo hi : Z) c : Prop :=
  ∀ k it, items c !! k = Some it → lo ≤ Frequency it ≤ hi.

(** What holds of the index whatever the counters do. *)
Definition repOk c : Prop := bucketsSound c ∧ bucketsNonEmpty c.

(** When the store is full, the bucket at [minFreq] exists: the eviction
    loop of [Set] finds a victim. *)
Definition capOk c : Prop :=
  (size c ≤ len (items c) → hasBucket c (minFreq c)) ∧ len (items c) ≤ size c.

Definition capInv c : Prop := repOk c ∧ capOk c.

(** The parts of the invariant that do not mention [minFreq]. *)
Definition indexOk c : Prop :=
  repOk c ∧ bucketsComplete c ∧ freqsWithin 1 MaxUint64 c.

(** The full invariant, which holds while no counter has wrapped around. *)
Definition structOk c : Prop := indexOk c ∧ minExact c.

(** *** The invariants of the specification, as predicates on states *)

(** [minFreq] is the least index of a non-empty bucket, when there are
    entries. *)
Definition minConsistent c : Prop :=
  items c ≠ ∅ →
  bucket c (minFreq c) ≠ ∅ ∧ ∀ f, bucket c f ≠ ∅ → minFreq c ≤ f.

(** A stored key is in the bucket of its frequency and in no other, and no
    bucket of the index is empty. *)
Definition membershipConsistent c : Prop :=
  (∀ k it, items c !! k = Some it → ∀ f, k ∈ bucket c f ↔ f = Frequency it) ∧
  (∀ f, freqGroup c !! f ≠ Some ∅).

(** Every stored frequency is at least 1 and there is no bucket 0. *)
Definition freqsPositive c : Prop :=
  (∀ k it, items c !! k = Some it → 1 ≤ Frequency it) ∧ freqGroup c !! 0 = None.

End Notions.

(** ** Concrete inputs *)

(** The scenario of the specification: capacity 2, two keys, a hit, a third
    key. *)
Definition scenarioCache : InMemoryCache (V := Z) := NewInMemoryCache 2 1000 1.

Definition scenarioOps : list (Op Z Z) :=
  [ OpSet "a" 1 0 0 "" ; OpSet "b" 2 0 0 "a" ; OpGet "a" 1 ; OpSet "c" 3 0 2 "b" ].

(** The store after the first three operations: ["a"] at frequency 2, ["b"]
    at frequency 1, both expiring at 1000. *)
Definition fullCache : InMemoryCache (V := Z) := run 0 scenarioCache (take 3 scenarioOps).

(** A store of capacity 2 that holds the single key ["a"], at frequency
    [f]. *)
Definition soloState (f : Z) : InMemoryCache (V := Z) :=
  mkCache {["a"%string := mkItem 7 1000 f]} {[f := {["a"%string]}]} f 1000 0 2.

Definition getA : Op Z unit := OpGet "a" 0.

Definition setA : Op Z unit := OpSet "a" 7 0 0 "".

Definition freshCache : InMemoryCache (V := Z) := NewInMemoryCache 2 1000 0.

(** [Set] of ["a"], then [n] times [Get] of ["a"]. *)
Definition getsHistory (n : nat) : list (Op Z unit) := setA :: repeat getA n.

(** [2^64 - 1] times [Get] after the [Set]: a history of [2^64]
    operations. *)
Definition wrapCount : nat := Z.to_nat MaxUint64.

Definition wrapHistory : list (Op Z unit) := getsHistory wrapCount.

(** One [Get] less: the counter stands at [2^64 - 1]. *)
Definition brinkCount : nat := Z.to_nat (MaxUint64 - 1).

Definition brinkHistory : list (Op Z unit) := getsHistory brinkCount.

(** * The scenario of the specification, by evaluation *)

Example scenario_history_ok : historyOk 0 scenarioCache scenarioOps.
Proof. compute_done. Qed.

Example scenario_frequencies :
  Frequency <$> items fullCache = {["a"%string := 2; "b"%string := 1]} ∧
  minFreq fullCache = 1.
Proof. vm_compute. done. Qed.

Example scenario_gets :
  let c := run 0 scenarioCache scenarioOps in
  (Get 0 "a" 3 c).1 = (1, true) ∧ (Get 0 "b" 3 c).1 = (0, false) ∧
  (Get 0 "c" 3 c).1 = (3, true) ∧ minFreq c = 1 ∧ len (items c) = 2.
Proof. vm_compute. done. Qed.

(** * Properties *)

Section Primitives.
Context {V : Type} (nil : V).
Implicit Types (c : InMemoryCache (V := V)) (item it : Item (V := V)).
Implicit Types (key k : string) (f : Z) (m : gmap string (Item (V := V))).

(** ** Machine arithmetic *)

Lemma u64_succ_small f : 0 ≤ f < MaxUint64 → u64_succ f = f + 1.
Proof. unfold u64_succ, MaxUint64. intros ?. apply Z.mod_small. lia. Qed.

Lemma u64_succ_max : u64_succ MaxUint64 = 0.
Proof. reflexivity. Qed.

Lemma u64_succ_neq f : u64_succ f ≠ f.
Proof.
  unfold u64_succ. intros E.
  pose proof (Z.mod_pos_bound (f + 1) (2 ^ 64) eq_refl) as B.
  rewrite E in B. destruct (decide (f = MaxUint64)) as [->|].
  - discriminate E.
  - unfold MaxUint64 in *. rewrite Z.mod_small in E; lia.
Qed.

(** ** The frequency index *)

(** [deleteItemInGroup] touches the frequency index only; the bucket of the
    item's frequency loses the key and disappears when nothing is left. *)
Lemma deleteItemInGroup_fields item key c :
  let c' := (deleteItemInGroup item key c).2 in
  items c' = items c ∧ minFreq c' = minFreq c ∧ size c' = size c ∧
  defaultExpiration c' = defaultExpiration c ∧ cleanupInterval c' = cleanupInterval c.
Proof. unfold deleteItemInGroup. simpl. case_bool_decide; done. Qed.

Lemma deleteItemInGroup_unfold item key c :
  deleteItemInGroup item key c =
    let f := Frequency item in
    let g := removeFromBucket f key (freqGroup c) in
    if decide (default ∅ (g !! f) = ∅) then
      (bool_decide (minFreq c = f), with_freqGroup (delete f g) c)
    else (false, with_freqGroup g c).
Proof.
  unfold deleteItemInGroup, bucket. cbn [freqGroup with_freqGroup minFreq].
  set (b := default ∅ _). case_bool_decide as Hs; case_decide as He; try done.
  - destruct He. apply leibniz_equiv. by apply size_empty_iff.
  - destruct Hs. rewrite He. apply size_empty.
Qed.

Lemma deleteItemInGroup_lookup item key c f :
  freqGroup (deleteItemInGroup item key c).2 !! f =
    if decide (f = Frequency item) then
      match freqGroup c !! f with
      | Some b => if decide (b ∖ {[key]} = ∅) then None else Some (b ∖ {[key]})
      | None => None
      end
    else freqGroup c !! f.
Proof.
  rewrite deleteItemInGroup_unfold. unfold removeFromBucket. cbv zeta.
  destruct (freqGroup c !! Frequency item) as [b|] eqn:E.
  - rewrite lookup_insert_eq. cbn [default from_option id].
    destruct (decide (b ∖ {[key]} = ∅)) as [He|He]; cbn [snd freqGroup with_freqGroup].
    + destruct (decide (f = Frequency item)) as [->|].
      * rewrite lookup_delete_eq, E. by rewrite decide_True.
      * by rewrite lookup_delete_ne, lookup_insert_ne.
    + destruct (decide (f = Frequency item)) as [->|].
      * rewrite lookup_insert_eq, E. by rewrite decide_False.
      * by rewrite lookup_insert_ne.
  - rewrite E. cbn [default from_option id]. rewrite decide_True by done.
    cbn [snd freqGroup with_freqGroup].
    destruct (decide (f = Frequency item)) as [->|].
    + by rewrite lookup_delete_eq, E.
    + by rewrite lookup_delete_ne.
Qed.

Lemma deleteItemInGroup_flag item key c :
  (deleteItemInGroup item key c).1 = true ↔
  minFreq c = Frequency item ∧ bucket c (Frequency item) ∖ {[key]} = ∅.
Proof.
  rewrite deleteItemInGroup_unfold. unfold removeFromBucket, bucket. cbv zeta.
  destruct (freqGroup c !! Frequency item) as [b|] eqn:E.
  - rewrite lookup_insert_eq. cbn [default from_option id].
    destruct (decide (b ∖ {[key]} = ∅)) as [He|He]; cbn [fst].
    + rewrite bool_decide_eq_true. naive_solver.
    + naive_solver.
  - rewrite E. cbn [default from_option id]. rewrite decide_True by done. cbn [fst].
    rewrite bool_decide_eq_true. split; [|naive_solver]. intros ->. split; [done|set_solver].
Qed.

Lemma deleteItemInGroup_in item key c f k :
  inBucket (deleteItemInGroup item key c).2 f k ↔
  inBucket c f k ∧ ¬ (f = Frequency item ∧ k = key).
Proof.
  unfold inBucket, bucket. rewrite deleteItemInGroup_lookup.
  destruct (decide (f = Frequency item)) as [->|]; [|naive_solver].
  destruct (freqGroup c !! Frequency item) as [b|]; simpl; [|set_solver].
  case_decide; simpl; set_solver.
Qed.

Lemma deleteItemInGroup_has item key c f :
  hasBucket (deleteItemInGroup item key c).2 f ↔
  hasBucket c f ∧ (f = Frequency item → bucket c f ∖ {[key]} ≠ ∅).
Proof.
  unfold hasBucket, bucket. rewrite deleteItemInGroup_lookup.
  destruct (decide (f = Frequency item)) as [->|]; [|naive_solver].
  destruct (freqGroup c !! Frequency item) as [b|]; simpl.
  - case_decide; naive_solver.
  - split; [by intros []|]. by intros [[] _].
Qed.

(** [upgradeItem] stores the item under its key with the next frequency
    and moves the key from the bucket of the old frequency to the bucket of
    the new one. *)
Lemma upgradeItem_unfold item key c :
  upgradeItem item key c =
    let nf := u64_succ (Frequency item) in
    let r := deleteItemInGroup item key c in
    mkCache (<[key := with_Frequency nf item]> (items c))
            (<[nf := bucket r.2 nf ∪ {[key]}]> (freqGroup r.2))
            (if r.1 then nf else minFreq c)
            (defaultExpiration c) (cleanupInterval c) (size c).
Proof.
  unfold upgradeItem. cbv zeta.
  assert (deleteItemInGroup item key (with_items (<[key:=item]> (items c)) c)
          = ((deleteItemInGroup item key c).1,
             with_items (<[key:=item]> (items c)) (deleteItemInGroup item key c).2)) as ->.
  { rewrite !deleteItemInGroup_unfold. cbv zeta.
    cbn [freqGroup with_items minFreq]. by case_decide. }
  destruct (deleteItemInGroup_fields item key c) as (Hi & Hm & Hs & Hd & Hc).
  destruct (deleteItemInGroup item key c) as [b [m g mf de cl sz]].
  cbn [fst snd] in *. cbn in Hi, Hm, Hs, Hd, Hc. subst.
  cbn [with_Frequency Frequency].
  destruct b; cbn [with_minFreq with_items with_freqGroup freqGroup items minFreq
                   defaultExpiration cleanupInterval size];
    destruct (g !! u64_succ (Frequency item)) as [b'|] eqn:E;
    unfold bucket; cbn [with_minFreq with_items with_freqGroup freqGroup items minFreq
                   defaultExpiration cleanupInterval size];
    rewrite ?lookup_insert_eq, ?E, ?insert_insert_eq; done.
Qed.

Lemma upgradeItem_items item key c :
  items (upgradeItem item key c) =
    <[key := with_Frequency (u64_succ (Frequency item)) item]> (items c).
Proof. by rewrite upgradeItem_unfold. Qed.

Lemma upgradeItem_fields item key c :
  size (upgradeItem item key c) = size c ∧
  defaultExpiration (upgradeItem item key c) = defaultExpiration c ∧
  cleanupInterval (upgradeItem item key c) = cleanupInterval c.
Proof. by rewrite upgradeItem_unfold. Qed.

Lemma upgradeItem_minFreq item key c :
  minFreq (upgradeItem item key c) =
    if decide (minFreq c = Frequency item ∧ bucket c (Frequency item) ∖ {[key]} = ∅)
    then u64_succ (Frequency item) else minFreq c.
Proof.
  rewrite upgradeItem_unfold. cbn [minFreq].
  pose proof (deleteItemInGroup_flag item key c) as Hf.
  destruct (deleteItemInGroup item key c).1; case_decide; naive_solver.
Qed.

Lemma upgradeItem_in item key c f k :
  inBucket (upgradeItem item key c) f k ↔
  (f = u64_succ (Frequency item) ∧ k = key) ∨
  (inBucket c f k ∧ ¬ (f = Frequency item ∧ k = key)).
Proof.
  rewrite upgradeItem_unfold. cbv zeta.
  rewrite <- deleteItemInGroup_in. unfold inBucket at 1, bucket at 1. cbn [freqGroup].
  destruct (decide (f = u64_succ (Frequency item))) as [->|].
  - rewrite lookup_insert_eq. cbn [default from_option id]. unfold inBucket. set_solver.
  - rewrite lookup_insert_ne by done. unfold inBucket, bucket. naive_solver.
Qed.

Lemma upgradeItem_has item key c f :
  hasBucket (upgradeItem item key c) f ↔
  f = u64_succ (Frequency item) ∨
  (hasBucket c f ∧ (f = Frequency item → bucket c f ∖ {[key]} ≠ ∅)).
Proof.
  rewrite upgradeItem_unfold. cbv zeta.
  rewrite <- deleteItemInGroup_has. unfold hasBucket at 1. cbn [freqGroup].
  destruct (decide (f = u64_succ (Frequency item))) as [->|].
  - rewrite lookup_insert_eq. naive_solver.
  - rewrite lookup_insert_ne by done. unfold hasBucket. naive_solver.
Qed.

(** Removing a key: [delete(c.items, key)] and [deleteItemInGroup], in
    either order. *)
Lemma deleteItemInGroup_with_items item key m c :
  deleteItemInGroup item key (with_items m c) =
    ((deleteItemInGroup item key c).1, with_items m (deleteItemInGroup item key c).2).
Proof.
  rewrite !deleteItemInGroup_unfold. cbv zeta.
  cbn [freqGroup with_items minFreq]. by case_decide.
Qed.

Lemma removeKey_items item key c : items (removeKey item key c) = delete key (items c).
Proof. unfold removeKey. by rewrite deleteItemInGroup_with_items. Qed.

Lemma removeKey_fields item key c :
  minFreq (removeKey item key c) = minFreq c ∧ size (removeKey item key c) = size c ∧
  defaultExpiration (removeKey item key c) = defaultExpiration c ∧
  cleanupInterval (removeKey item key c) = cleanupInterval c.
Proof.
  unfold removeKey. rewrite deleteItemInGroup_with_items. cbn [snd].
  destruct (deleteItemInGroup_fields item key c) as (_ & ? & ? & ? & ?). done.
Qed.

Lemma removeKey_in item key c f k :
  inBucket (removeKey item key c) f k ↔ inBucket c f k ∧ ¬ (f = Frequency item ∧ k = key).
Proof.
  unfold removeKey. rewrite deleteItemInGroup_with_items. cbn [snd].
  apply deleteItemInGroup_in.
Qed.

Lemma removeKey_has item key c f :
  hasBucket (removeKey item key c) f ↔
  hasBucket c f ∧ (f = Frequency item → bucket c f ∖ {[key]} ≠ ∅).
Proof.
  unfold removeKey. rewrite deleteItemInGroup_with_items. cbn [snd].
  apply deleteItemInGroup_has.
Qed.

Lemma evict_unfold keyToDelete c :
  evict nil keyToDelete c =
    if decide (bucket c (minFreq c) = ∅) then c
    else removeKey (itemAt nil c keyToDelete) keyToDelete c.
Proof.
  unfold evict, removeKey. case_bool_decide; case_decide; try done.
  rewrite deleteItemInGroup_with_items. cbn [snd].
  by destruct (deleteItemInGroup_fields (itemAt nil c keyToDelete) keyToDelete c) as (-> & _).
Qed.

(** ** Soundness and non-emptiness of the buckets, step by step *)

Lemma inBucket_has c f k : inBucket c f k → hasBucket c f.
Proof.
  unfold inBucket, hasBucket, bucket.
  destruct (freqGroup c !! f); [eauto|set_solver].
Qed.

Lemma bucket_diff_nonempty c f key :
  bucket c f ∖ {[key]} ≠ ∅ ↔ ∃ k, inBucket c f k ∧ k ≠ key.
Proof.
  unfold inBucket. split.
  - intros Hne. apply set_choose_L in Hne as [k Hk]. exists k. set_solver.
  - intros (k & ? & ?). set_solver.
Qed.

Lemma upgradeItem_sound item key c :
  bucketsSound c → (∀ f, inBucket c f key → f = Frequency item) →
  bucketsSound (upgradeItem item key c).
Proof.
  intros Hs Hk f k. rewrite upgradeItem_in, upgradeItem_items.
  intros [[-> ->]|[Hin Hne]].
  - rewrite lookup_insert_eq. eauto.
  - destruct (decide (k = key)) as [->|].
    + destruct Hne. split; [|done]. by apply Hk.
    + rewrite lookup_insert_ne by done. by apply Hs.
Qed.

Lemma upgradeItem_nonEmpty item key c :
  bucketsNonEmpty c → bucketsNonEmpty (upgradeItem item key c).
Proof.
  intros Hn f. rewrite upgradeItem_has. intros [->|[Hb Hf]].
  - exists key. rewrite upgradeItem_in. by left.
  - destruct (decide (f = Frequency item)) as [->|].
    + apply bucket_diff_nonempty in Hf as (k & ? & ?); [|done].
      exists k. rewrite upgradeItem_in. right. naive_solver.
    + destruct (Hn f Hb) as [k ?]. exists k. rewrite upgradeItem_in. right. naive_solver.
Qed.

Lemma removeKey_sound item key c :
  bucketsSound c → (∀ f, inBucket c f key → f = Frequency item) →
  bucketsSound (removeKey item key c).
Proof.
  intros Hs Hk f k. rewrite removeKey_in, removeKey_items. intros [Hin Hne].
  destruct (decide (k = key)) as [->|].
  - destruct Hne. split; [|done]. by apply Hk.
  - rewrite lookup_delete_ne by done. by apply Hs.
Qed.

Lemma removeKey_nonEmpty item key c :
  bucketsNonEmpty c → bucketsNonEmpty (removeKey item key c).
Proof.
  intros Hn f. rewrite removeKey_has. intros [Hb Hf].
  destruct (decide (f = Frequency item)) as [->|].
  - apply bucket_diff_nonempty in Hf as (k & ? & ?); [|done].
    exists k. rewrite removeKey_in. naive_solver.
  - destruct (Hn f Hb) as [k ?]. exists k. rewrite removeKey_in. naive_solver.
Qed.

(** ** The public operations in terms of [upgradeItem] and [removeKey] *)

Lemma Set_unfold key value duration now keyToDelete c :
  Set_ nil key value duration now keyToDelete c =
    if decide (size c ≤ 0) then c
    else
      let exp := getExp now duration c in
      match items c !! key with
      | Some old => upgradeItem (mkItem value exp (Frequency old)) key c
      | None =>
        insertNew key (mkItem value exp 0)
          (if decide (size c ≤ len (items c)) then evict nil keyToDelete c else c)
      end.
Proof.
  unfold Set_, insertNew. case_bool_decide; case_decide; try done. cbv zeta.
  destruct (items c !! key); [done|].
  cbn [Frequency]. f_equal.
  case_bool_decide; case_decide; try done;
    unfold bucket; cbn [freqGroup with_freqGroup];
    rewrite lookup_insert_eq, insert_insert_eq; cbn [default from_option id];
    by rewrite (left_id_L ∅ (∪)).
Qed.

Lemma Get_unfold key now c :
  Get nil key now c =
    match items c !! key with
    | None => ((nil, false), c)
    | Some item =>
      if decide (Expiration item < now) then ((nil, false), c)
      else ((Value item, true), upgradeItem item key c)
    end.
Proof.
  unfold Get, isExpired. destruct (items c !! key); [|done].
  by case_bool_decide; case_decide.
Qed.

Lemma Delete_unfold key c :
  Delete key c =
    match items c !! key with
    | None => (Some "Key not found"%string, c)
    | Some item =>
      let c' := removeKey item key c in
      (None, if decide (minBucketEmptied item key c)
             then with_minFreq (findNewMinFreq c') c' else c')
    end.
Proof.
  unfold Delete, removeKey, minBucketEmptied. destruct (items c !! key) as [item|]; [|done].
  cbv zeta. rewrite deleteItemInGroup_with_items.
  pose proof (deleteItemInGroup_flag item key c) as Hf.
  destruct (deleteItemInGroup item key c) as [[] c']; cbn [fst snd] in *;
    case_decide; naive_solver.
Qed.

Lemma gcVisit_unfold c isFindMin key now :
  gcVisit (c, isFindMin) (key, now) =
    match items c !! key with
    | None => (c, isFindMin)
    | Some item =>
      if decide (Expiration item < now) then
        (removeKey item key c, bool_decide (minBucketEmptied item key c) || isFindMin)
      else (c, isFindMin)
    end.
Proof.
  unfold gcVisit, isExpired, removeKey, minBucketEmptied.
  destruct (items c !! key) as [item|]; [|done].
  case_bool_decide; case_decide; try done.
  rewrite deleteItemInGroup_with_items.
  pose proof (deleteItemInGroup_flag item key c) as Hf.
  destruct (deleteItemInGroup item key c) as [[] c']; cbn [fst snd] in *;
    case_bool_decide; naive_solver.
Qed.

Lemma updateVisit_unfold {Heap} (isUpdated : V → Heap → bool) update exp c h key now :
  updateVisit isUpdated update exp (c, h) (key, now) =
    match items c !! key with
    | None => (c, h)
    | Some item =>
      if decide (isUpdated (Value item) h = true ∧ ¬ Expiration item < now) then
        (upgradeItem (with_Expiration exp item) key c, update (Value item) h)
      else (c, h)
    end.
Proof.
  clear nil.
  unfold updateVisit, isExpired. destruct (items c !! key) as [item|]; [|done].
  destruct (isUpdated (Value item) h); case_bool_decide; case_decide; naive_solver.
Qed.

(** Views of [insertNew]. *)
Lemma insertNew_items key item c :
  items (insertNew key item c) =
    <[key := with_Frequency (u64_succ (Frequency item)) item]> (items c).
Proof. unfold insertNew. by rewrite upgradeItem_items. Qed.

Lemma insertNew_fields key item c :
  minFreq (insertNew key item c) = u64_succ (Frequency item) ∧
  size (insertNew key item c) = size c ∧
  defaultExpiration (insertNew key item c) = defaultExpiration c ∧
  cleanupInterval (insertNew key item c) = cleanupInterval c.
Proof.
  unfold insertNew. rewrite upgradeItem_minFreq.
  split; [|by rewrite upgradeItem_unfold].
  rewrite decide_True; [done|]. split; [done|].
  unfold bucket. cbn [freqGroup with_freqGroup with_minFreq].
  rewrite lookup_insert_eq. cbn [default from_option id]. set_solver.
Qed.

Lemma insertNew_in key item c f k :
  inBucket (insertNew key item c) f k ↔
  (f = u64_succ (Frequency item) ∧ k = key) ∨ (f ≠ Frequency item ∧ inBucket c f k).
Proof.
  unfold insertNew. rewrite upgradeItem_in. unfold inBucket, bucket.
  cbn [freqGroup with_freqGroup with_minFreq].
  destruct (decide (f = Frequency item)) as [->|].
  - rewrite lookup_insert_eq. cbn [default from_option id].
    pose proof (u64_succ_neq (Frequency item)). set_solver.
  - rewrite lookup_insert_ne by done. naive_solver.
Qed.

Lemma insertNew_has key item c f :
  hasBucket (insertNew key item c) f ↔
  f = u64_succ (Frequency item) ∨ (f ≠ Frequency item ∧ hasBucket c f).
Proof.
  unfold insertNew. rewrite upgradeItem_has. unfold hasBucket, bucket.
  cbn [freqGroup with_freqGroup with_minFreq].
  destruct (decide (f = Frequency item)) as [->|].
  - rewrite lookup_insert_eq. cbn [default from_option id].
    split; [|naive_solver]. intros [?|[_ Hne]]; [by left|]. destruct Hne; [done|set_solver].
  - rewrite lookup_insert_ne by done. naive_solver.
Qed.

(** ** Sizes *)

Lemma len_insert_Some m k x :
  is_Some (m !! k) → len (<[k := x]> m) = len m.
Proof. intros ?. unfold len. by rewrite map_size_insert_Some. Qed.

Lemma len_insert_None m k x :
  m !! k = None → len (<[k := x]> m) = len m + 1.
Proof. intros ?. unfold len. rewrite map_size_insert_None by done. lia. Qed.

Lemma len_delete_Some m k :
  is_Some (m !! k) → len (delete k m) = len m - 1.
Proof.
  intros [x Hx]. unfold len. rewrite map_size_delete_Some by eauto.
  assert (base.size m ≠ 0%nat); [|lia].
  apply map_size_non_empty_iff. intros ->. by rewrite lookup_empty in Hx.
Qed.

(** ** Soundness of the index under every operation *)

Lemma sound_unique c f k it :
  bucketsSound c → items c !! k = Some it → inBucket c f k → f = Frequency it.
Proof. intros Hs Hk Hin. destruct (Hs _ _ Hin) as (it' & ? & ?). congruence. Qed.

Lemma sound_absent c f k : bucketsSound c → items c !! k = None → ¬ inBucket c f k.
Proof. intros Hs Hk Hin. destruct (Hs _ _ Hin) as (it' & ? & ?). congruence. Qed.

Lemma upgradeItem_repOk item key c it :
  repOk c → items c !! key = Some it → Frequency it = Frequency item →
  repOk (upgradeItem item key c).
Proof.
  intros [Hs Hn] Hk Hf. split.
  - apply upgradeItem_sound; [done|]. intros f Hin. rewrite <- Hf. by eapply sound_unique.
  - by apply upgradeItem_nonEmpty.
Qed.

Lemma removeKey_repOk item key c :
  repOk c → items c !! key = Some item → repOk (removeKey item key c).
Proof.
  intros [Hs Hn] Hk. split.
  - apply removeKey_sound; [done|]. intros f Hin. by eapply sound_unique.
  - by apply removeKey_nonEmpty.
Qed.

Lemma evict_cases keyToDelete c :
  bucketsSound c → rangeFirst (bucket c (minFreq c)) keyToDelete →
  (bucket c (minFreq c) = ∅ ∧ evict nil keyToDelete c = c) ∨
  (∃ it, items c !! keyToDelete = Some it ∧ Frequency it = minFreq c ∧
         inBucket c (minFreq c) keyToDelete ∧
         evict nil keyToDelete c = removeKey it keyToDelete c).
Proof.
  intros Hs Hr. rewrite evict_unfold. case_decide as He; [by left|]. right.
  specialize (Hr He). destruct (Hs _ _ Hr) as (it & Hk & Hf).
  exists it. unfold itemAt. rewrite Hk. done.
Qed.

Lemma insertNew_repOk key item c :
  repOk c → items c !! key = None → repOk (insertNew key item c).
Proof.
  intros [Hs Hn] Hk. split.
  - intros f k. rewrite insertNew_in, insertNew_items. intros [[-> ->]|[Hne Hin]].
    + rewrite lookup_insert_eq. eauto.
    + destruct (Hs _ _ Hin) as (it & Hit & Hf).
      rewrite lookup_insert_ne by congruence. eauto.
  - intros f. rewrite insertNew_has. intros [->|[Hne Hb]].
    + exists key. rewrite insertNew_in. by left.
    + destruct (Hn _ Hb) as [k ?]. exists k. rewrite insertNew_in. by right.
Qed.

(** ** The capacity bound *)

Lemma foldl_invariant {A B} (P : A → Prop) (g : A → B → A) (l : list B) (a : A) :
  P a → (∀ a b, P a → P (g a b)) → P (foldl g a l).
Proof. intros Ha Hg. revert a Ha. induction l; simpl; eauto. Qed.

Lemma upgradeItem_hasMin item key c :
  hasBucket c (minFreq c) →
  hasBucket (upgradeItem item key c) (minFreq (upgradeItem item key c)).
Proof.
  intros Hm. rewrite upgradeItem_minFreq, upgradeItem_has.
  case_decide as Hc; [by left|]. right. split; [done|]. intros Hf Hb. apply Hc.
  split; [done|]. by rewrite <- Hf.
Qed.

Lemma upgradeItem_capInv item key c it :
  capInv c → items c !! key = Some it → Frequency it = Frequency item →
  capInv (upgradeItem item key c) ∧ size (upgradeItem item key c) = size c.
Proof.
  intros [Hr [Hm Hl]] Hk Hf.
  destruct (upgradeItem_fields item key c) as (Hsz & _).
  split; [|done]. split; [by eapply upgradeItem_repOk|].
  unfold capOk. rewrite Hsz, upgradeItem_items, len_insert_Some by eauto.
  split; [|done]. intros ?. apply upgradeItem_hasMin. eauto.
Qed.

Lemma removeKey_len item key c :
  items c !! key = Some item → len (items (removeKey item key c)) = len (items c) - 1.
Proof. intros ?. rewrite removeKey_items. apply len_delete_Some. eauto. Qed.

Lemma Set_capInv key value duration now keyToDelete c :
  0 < size c → capInv c → rangeFirst (bucket c (minFreq c)) keyToDelete →
  capInv (Set_ nil key value duration now keyToDelete c) ∧
  size (Set_ nil key value duration now keyToDelete c) = size c.
Proof.
  intros Hpos [Hr [Hm Hl]] Hv. rewrite Set_unfold. rewrite decide_False by lia. cbv zeta.
  destruct (items c !! key) as [old|] eqn:Hk.
  { by eapply upgradeItem_capInv. }
  set (c1 := if decide (size c ≤ len (items c)) then evict nil keyToDelete c else c).
  assert (repOk c1 ∧ items c1 !! key = None ∧ size c1 = size c ∧
          len (items c1) < size c) as (Hr1 & Hk1 & Hs1 & Hl1).
  { subst c1. case_decide as Hfull; [|split_and!; [done..|lia]].
    destruct (evict_cases keyToDelete c) as [[He _]|(it & Hit & _ & _ & ->)];
      [apply Hr|done| |].
    - destruct (proj2 Hr _ (Hm Hfull)) as [k Hin]. unfold inBucket in Hin. set_solver.
    - split; [by apply removeKey_repOk|]. rewrite removeKey_items.
      split; [by rewrite lookup_delete_ne by congruence|].
      split; [apply removeKey_fields|]. rewrite len_delete_Some by eauto. lia. }
  destruct (insertNew_fields key (mkItem value (getExp now duration c) 0) c1)
    as (Hmin & Hsz & _).
  split; [|congruence]. split; [by apply insertNew_repOk|].
  unfold capOk. rewrite Hsz, Hmin, insertNew_items, len_insert_None by done.
  split; [|lia]. intros _. rewrite insertNew_has. by left.
Qed.

Lemma Get_capInv key now c :
  capInv c → capInv (Get nil key now c).2 ∧ size (Get nil key now c).2 = size c.
Proof.
  intros Hc. rewrite Get_unfold. destruct (items c !! key) as [item|] eqn:Hk; [|done].
  case_decide; [done|]. by eapply upgradeItem_capInv.
Qed.

Lemma removeKey_capInv item key f c :
  capInv c → items c !! key = Some item →
  capInv (removeKey item key c) ∧ capInv (with_minFreq f (removeKey item key c)).
Proof.
  intros [Hr [Hm Hl]] Hk.
  pose proof (removeKey_len _ _ _ Hk) as Hlen.
  destruct (removeKey_fields item key c) as (_ & Hsz & _).
  assert (repOk (removeKey item key c)) by by apply removeKey_repOk.
  split; (split; [done|]); unfold capOk; cbn [size items with_minFreq];
    rewrite Hsz, Hlen; (split; [|lia]); intros ?; lia.
Qed.

Lemma Delete_capInv key c :
  capInv c → capInv (Delete key c).2 ∧ size (Delete key c).2 = size c.
Proof.
  intros Hc. rewrite Delete_unfold. destruct (items c !! key) as [item|] eqn:Hk; [|done].
  cbv zeta. cbn [snd].
  destruct (removeKey_capInv item key (findNewMinFreq (removeKey item key c)) c Hc Hk).
  destruct (removeKey_fields item key c) as (_ & Hsz & _).
  by case_decide.
Qed.

Lemma Update_capInv {Heap} (isUpdated : V → Heap → bool) update duration now visits c h :
  capInv c →
  capInv (Update isUpdated update duration now visits (c, h)).1 ∧
  size (Update isUpdated update duration now visits (c, h)).1 = size c.
Proof.
  intros Hc. unfold Update.
  apply (foldl_invariant (λ st, capInv st.1 ∧ size st.1 = size c)); [done|].
  intros [c1 h1] [key t] [Hc1 Hs1]. rewrite updateVisit_unfold.
  destruct (items c1 !! key) as [item|] eqn:Hk; [|done]. case_decide; [|done].
  cbn [fst] in *. rewrite <- Hs1. by eapply upgradeItem_capInv.
Qed.

Lemma gcTick_capInv visits c :
  capInv c → capInv (gcTick visits c) ∧ size (gcTick visits c) = size c.
Proof.
  intros Hc. unfold gcTick.
  pose proof (foldl_invariant
    (λ st, st = (c, false) ∨
           (repOk st.1 ∧ size st.1 = size c ∧ len (items st.1) < len (items c)))
    gcVisit visits (c, false)) as Hfold.
  destruct (foldl gcVisit (c, false) visits) as [c1 fm].
  destruct Hfold as [[= -> ->]|(Hr & Hs & Hl)]; [by left| |done|].
  - intros [c2 fm2] [key t] Hst. rewrite gcVisit_unfold.
    destruct (items c2 !! key) as [item|] eqn:Hk; [|done]. case_decide; [|done].
    right. cbn [fst].
    destruct (removeKey_fields item key c2) as (_ & Hsz & _).
    rewrite removeKey_len, Hsz by done.
    destruct Hst as [[= -> ->]|(Hr & Hs & Hl)].
    + split; [apply removeKey_repOk; [apply Hc|done]|]. split; [done|lia].
    + cbn [fst] in *. split; [by apply removeKey_repOk|]. split; [done|lia].
  - destruct Hc as [_ [_ Hle]]. cbn [fst] in *.
    assert (∀ f, capInv (with_minFreq f c1)) as Hany.
    { intros f. split; [done|]. unfold capOk. cbn [size items with_minFreq].
      rewrite Hs. split; [|lia]. intros ?; lia. }
    destruct fm; [by split|]. split; [|done].
    destruct c1; apply (Hany minFreq0).
Qed.

Lemma New_capInv sz defaultExp cleanup :
  0 < sz → capInv (NewInMemoryCache (V := V) sz defaultExp cleanup).
Proof.
  intros Hpos. split; [split|split].
  - intros f k. unfold inBucket, bucket. cbn. rewrite lookup_empty. set_solver.
  - intros f. unfold hasBucket. cbn. rewrite lookup_empty. by intros [].
  - cbn [size items NewInMemoryCache]. unfold len. rewrite map_size_empty. lia.
  - cbn [size items NewInMemoryCache]. unfold len. rewrite map_size_empty. lia.
Qed.

(** What [Set] does for a new key on a full store. *)
Lemma Set_evicts key value duration now keyToDelete c :
  0 < size c → capInv c → rangeFirst (bucket c (minFreq c)) keyToDelete →
  items c !! key = None → size c ≤ len (items c) →
  let c' := Set_ nil key value duration now keyToDelete c in
  inBucket c (minFreq c) keyToDelete ∧
  is_Some (items c !! keyToDelete) ∧
  keyToDelete ≠ key ∧
  items c' = <[key := mkItem value (getExp now duration c) 1]> (delete keyToDelete (items c)) ∧
  (∀ f, ¬ inBucket c' f keyToDelete).
Proof.
  intros Hpos Hc Hv Hk Hfull c'.
  destruct (Set_capInv key value duration now keyToDelete c Hpos Hc Hv) as [[[Hs' _] _] _].
  fold c' in Hs'. destruct Hc as [Hr [Hm Hl]].
  assert (items c' = <[key := mkItem value (getExp now duration c) 1]>
                       (items (evict nil keyToDelete c))) as Hitems.
  { subst c'. rewrite Set_unfold, decide_False by lia. cbv zeta.
    rewrite Hk, decide_True by done. by rewrite insertNew_items. }
  destruct (evict_cases keyToDelete c) as [[He _]|(it & Hit & _ & Hin & Hev)];
    [apply Hr|done| |].
  { destruct (proj2 Hr _ (Hm Hfull)) as [k Hin]. unfold inBucket in Hin. set_solver. }
  assert (keyToDelete ≠ key) as Hne by congruence.
  rewrite Hev, removeKey_items in Hitems.
  split_and!; [done|eauto|done|done|].
  intros f. apply sound_absent; [done|].
  by rewrite Hitems, lookup_insert_ne, lookup_delete_eq.
Qed.

(** ** The full invariant, while no counter wraps around *)

Lemma findNewMinFreq_spec c :
  findNewMinFreq c ≤ MaxUint64 ∧
  (∀ f, hasBucket c f → findNewMinFreq c ≤ f) ∧
  (findNewMinFreq c = MaxUint64 ∨ hasBucket c (findNewMinFreq c)).
Proof.
  unfold findNewMinFreq, hasBucket. generalize (freqGroup c). intros g.
  apply (map_fold_weak_ind (λ r (g : gmap Z (gset string)),
    r ≤ MaxUint64 ∧ (∀ f, is_Some (g !! f) → r ≤ f) ∧ (r = MaxUint64 ∨ is_Some (g !! r)))).
  - split; [done|]. split; [|by left]. intros f. rewrite lookup_empty. by intros [].
  - intros cur b g' r Hnone (Hmax & Hlb & Hmem). case_bool_decide as Hlt.
    + split; [lia|]. split.
      * intros f. destruct (decide (f = cur)) as [->|]; [lia|].
        rewrite lookup_insert_ne by done. intros Hf. specialize (Hlb _ Hf). lia.
      * right. rewrite lookup_insert_eq. eauto.
    + split; [done|]. split.
      * intros f. destruct (decide (f = cur)) as [->|]; [lia|].
        rewrite lookup_insert_ne by done. apply Hlb.
      * destruct Hmem as [?|Hr]; [by left|]. right.
        destruct (decide (r = cur)) as [->|]; [rewrite lookup_insert_eq; eauto|].
        by rewrite lookup_insert_ne.
Qed.

Lemma findNewMinFreq_exact c :
  (∀ f, hasBucket c f → f ≤ MaxUint64) → (∃ f, hasBucket c f) →
  hasBucket c (findNewMinFreq c) ∧ ∀ f, hasBucket c f → findNewMinFreq c ≤ f.
Proof.
  intros Hty [f0 Hf0]. destruct (findNewMinFreq_spec c) as (Hmax & Hlb & [Hr|Hr]).
  - split; [|done]. assert (f0 = findNewMinFreq c) as <-; [|done].
    specialize (Hlb _ Hf0). specialize (Hty _ Hf0). lia.
  - done.
Qed.

Lemma indexOk_typed c f : indexOk c → hasBucket c f → 1 ≤ f ≤ MaxUint64.
Proof.
  intros ([Hs Hn] & _ & Hw) Hb. destruct (Hn _ Hb) as [k Hk].
  destruct (Hs _ _ Hk) as (it & Hit & <-). by eapply Hw.
Qed.

Lemma indexOk_has c k it : indexOk c → items c !! k = Some it → hasBucket c (Frequency it).
Proof. intros (_ & Hc & _) Hk. eapply inBucket_has. by apply Hc. Qed.

Lemma upgradeItem_indexOk item key c it :
  indexOk c → items c !! key = Some it → Frequency it = Frequency item →
  Frequency item < MaxUint64 →
  indexOk (upgradeItem item key c).
Proof.
  intros (Hr & Hc & Hw) Hk Hf Hlt.
  assert (1 ≤ Frequency item) as Hlo by (rewrite <- Hf; by eapply Hw).
  split; [by eapply upgradeItem_repOk|]. split.
  - intros k it'. rewrite upgradeItem_items, upgradeItem_in.
    destruct (decide (k = key)) as [->|].
    + rewrite lookup_insert_eq. intros [= <-]. by left.
    + rewrite lookup_insert_ne by done. intros Hk'. right. split; [by apply Hc|naive_solver].
  - intros k it'. rewrite upgradeItem_items.
    destruct (decide (k = key)) as [->|].
    + rewrite lookup_insert_eq. intros [= <-]. cbn [Frequency with_Frequency].
      rewrite u64_succ_small by lia. lia.
    + rewrite lookup_insert_ne by done. apply Hw.
Qed.

Lemma upgradeItem_minExact item key c it :
  indexOk c → minExact c → items c !! key = Some it → Frequency it = Frequency item →
  Frequency item < MaxUint64 →
  minExact (upgradeItem item key c).
Proof.
  intros Hi Hm Hk Hf Hlt _.
  assert (1 ≤ Frequency item) as Hlo by (rewrite <- Hf; by eapply Hi).
  destruct Hm as [Hhas Hlb]. { intros E. by rewrite E, lookup_empty in Hk. }
  split; [by apply upgradeItem_hasMin|].
  intros f. rewrite upgradeItem_minFreq, upgradeItem_has, u64_succ_small by lia.
  assert (minFreq c ≤ Frequency item) as Hle.
  { apply Hlb. rewrite <- Hf. by eapply indexOk_has. }
  intros [->|[Hb Hne]].
  - case_decide; lia.
  - specialize (Hlb _ Hb). case_decide as Hc; [|done]. destruct Hc as [Hc1 Hc2].
    destruct (decide (f = Frequency item)) as [->|]; [by destruct Hne|lia].
Qed.

Lemma upgradeItem_structOk item key c it :
  structOk c → items c !! key = Some it → Frequency it = Frequency item →
  Frequency item < MaxUint64 →
  structOk (upgradeItem item key c).
Proof.
  intros [Hi Hm] ???. split; [by eapply upgradeItem_indexOk|by eapply upgradeItem_minExact].
Qed.

Lemma removeKey_indexOk item key c :
  indexOk c → items c !! key = Some item → indexOk (removeKey item key c).
Proof.
  intros (Hr & Hc & Hw) Hk. split; [by apply removeKey_repOk|]. split.
  - intros k it. rewrite removeKey_items, removeKey_in.
    destruct (decide (k = key)) as [->|]; [by rewrite lookup_delete_eq|].
    rewrite lookup_delete_ne by done. intros ?. split; [by apply Hc|naive_solver].
  - intros k it. rewrite removeKey_items.
    destruct (decide (k = key)) as [->|]; [by rewrite lookup_delete_eq|].
    rewrite lookup_delete_ne by done. apply Hw.
Qed.

(** After removals, [minFreq] is either still exact or recomputed. *)
Lemma recompute_minExact c :
  indexOk c → minExact (with_minFreq (findNewMinFreq c) c).
Proof.
  intros Hi Hne. cbn [items with_minFreq] in Hne.
  apply map_choose in Hne as (k & it & Hk).
  apply (findNewMinFreq_exact c).
  - intros f Hf. by apply (indexOk_typed c f).
  - exists (Frequency it). by eapply indexOk_has.
Qed.

Lemma removeKey_minExact item key c :
  indexOk c → minExact c → items c !! key = Some item →
  ¬ minBucketEmptied item key c →
  minExact (removeKey item key c).
Proof.
  intros Hi Hm Hk Hne Hnon.
  destruct (removeKey_fields item key c) as (Hmin & _).
  destruct Hm as [Hhas Hlb]. { intros E. by rewrite E, lookup_empty in Hk. }
  rewrite Hmin. split.
  - rewrite removeKey_has. split; [done|]. intros Hf Hb. apply Hne. split; [done|].
    by rewrite <- Hf.
  - intros f. rewrite removeKey_has. intros [Hb _]. by apply Hlb.
Qed.

Lemma insertNew_structOk key item c :
  indexOk c → items c !! key = None → Frequency item = 0 →
  structOk (insertNew key item c).
Proof.
  intros (Hr & Hc & Hw) Hk Hf.
  assert (u64_succ (Frequency item) = 1) as Hone by by rewrite Hf.
  assert (indexOk (insertNew key item c)) as Hi.
  { split; [by apply insertNew_repOk|]. split.
    - intros k it. rewrite insertNew_items, insertNew_in.
      destruct (decide (k = key)) as [->|].
      + rewrite lookup_insert_eq. intros [= <-]. by left.
      + rewrite lookup_insert_ne by done. intros Hk'. right.
        split; [|by apply Hc]. specialize (Hw _ _ Hk'). lia.
    - intros k it. rewrite insertNew_items.
      destruct (decide (k = key)) as [->|].
      + rewrite lookup_insert_eq. intros [= <-]. cbn [Frequency with_Frequency].
        rewrite Hone. done.
      + rewrite lookup_insert_ne by done. apply Hw. }
  split; [done|]. intros _.
  destruct (insertNew_fields key item c) as (-> & _). rewrite Hone. split.
  - rewrite insertNew_has. left. done.
  - intros f Hb. by apply (indexOk_typed _ _ Hi).
Qed.

Lemma evict_indexOk keyToDelete c :
  indexOk c → rangeFirst (bucket c (minFreq c)) keyToDelete →
  indexOk (evict nil keyToDelete c).
Proof.
  intros Hi Hv. destruct (evict_cases keyToDelete c) as [[_ ->]|(it & ? & _ & _ & ->)];
    [apply Hi|done|done|]. by apply removeKey_indexOk.
Qed.

Lemma evict_lookup keyToDelete c k :
  items c !! k = None → items (evict nil keyToDelete c) !! k = None.
Proof.
  intros Hk. rewrite evict_unfold. case_decide; [done|].
  rewrite removeKey_items. destruct (decide (k = keyToDelete)) as [->|].
  - apply lookup_delete_eq.
  - by rewrite lookup_delete_ne.
Qed.

Lemma Set_structOk key value duration now keyToDelete c :
  structOk c → rangeFirst (bucket c (minFreq c)) keyToDelete →
  (∀ old, items c !! key = Some old → Frequency old < MaxUint64) →
  structOk (Set_ nil key value duration now keyToDelete c).
Proof.
  intros Hc Hv Hlt. rewrite Set_unfold. case_decide; [done|]. cbv zeta.
  destruct (items c !! key) as [old|] eqn:Hk.
  - eapply upgradeItem_structOk; [done..|]. cbn [Frequency]. by apply Hlt.
  - apply insertNew_structOk; [|by case_decide; [apply evict_lookup|]|done].
    case_decide; [|apply Hc]. apply evict_indexOk; [apply Hc|done].
Qed.

Lemma Get_structOk key now c :
  structOk c → (∀ it, items c !! key = Some it → Frequency it < MaxUint64) →
  structOk (Get nil key now c).2.
Proof.
  intros Hc Hlt. rewrite Get_unfold. destruct (items c !! key) as [item|] eqn:Hk; [|done].
  case_decide; [done|]. eapply upgradeItem_structOk; [done..|]. by apply Hlt.
Qed.

Lemma Delete_structOk key c : structOk c → structOk (Delete key c).2.
Proof.
  intros [Hi Hm]. rewrite Delete_unfold. destruct (items c !! key) as [item|] eqn:Hk; [|done].
  cbv zeta. cbn [snd].
  pose proof (removeKey_indexOk item key c Hi Hk) as Hi'.
  case_decide.
  - split; [done|]. by apply recompute_minExact.
  - split; [done|]. by apply removeKey_minExact.
Qed.

(** *** Update: what happens to one key *)
Section UpdateLoop.
Context {Heap : Type} (isUpdated : V → Heap → bool) (update : V → Heap → Heap).
Implicit Types (h : Heap) (visits : list (string * Time)).

Lemma updateVisit_other exp c h key now k :
  k ≠ key → items (updateVisit isUpdated update exp (c, h) (key, now)).1 !! k = items c !! k.
Proof.
  intros Hne. rewrite updateVisit_unfold. destruct (items c !! key); [|done].
  case_decide; [|done]. cbn [fst]. by rewrite upgradeItem_items, lookup_insert_ne.
Qed.

Lemma updateLoop_other exp visits c h k :
  k ∉ visits.*1 →
  items (foldl (updateVisit isUpdated update exp) (c, h) visits).1 !! k = items c !! k.
Proof.
  revert c h. induction visits as [|[key t] visits IH]; intros c h Hk; [done|].
  rewrite fmap_cons, not_elem_of_cons in Hk. destruct Hk as [Hne Hk]. cbn [foldl].
  destruct (updateVisit isUpdated update exp (c, h) (key, t)) as [c1 h1] eqn:E.
  rewrite IH by done. replace c1 with (c1, h1).1 by done. rewrite <- E.
  by apply updateVisit_other.
Qed.

Lemma updateLoop_absent exp visits c h k :
  items c !! k = None →
  items (foldl (updateVisit isUpdated update exp) (c, h) visits).1 !! k = None.
Proof.
  revert c h. induction visits as [|[key t] visits IH]; intros c h Hk; [done|].
  cbn [foldl]. destruct (updateVisit isUpdated update exp (c, h) (key, t)) as [c1 h1] eqn:E.
  apply IH. replace c1 with (c1, h1).1 by done. rewrite <- E.
  destruct (decide (k = key)) as [->|]; [|by rewrite updateVisit_other].
  by rewrite updateVisit_unfold, Hk.
Qed.

(** The visit of key [k], after the visits [pre] and before the visits
    [post]. *)
Lemma updateLoop_at exp pre k now post c h it :
  NoDup (pre ++ (k, now) :: post).*1 →
  items c !! k = Some it →
  let st1 := foldl (updateVisit isUpdated update exp) (c, h) pre in
  let st2 := updateVisit isUpdated update exp st1 (k, now) in
  let st3 := foldl (updateVisit isUpdated update exp) (c, h) (pre ++ (k, now) :: post) in
  items st1.1 !! k = Some it ∧
  items st3.1 !! k = items st2.1 !! k ∧
  (isUpdated (Value it) st1.2 = true ∧ ¬ Expiration it < now →
     st2 = (upgradeItem (with_Expiration exp it) k st1.1, update (Value it) st1.2) ∧
     items st2.1 !! k = Some (mkItem (Value it) exp (u64_succ (Frequency it)))) ∧
  (¬ (isUpdated (Value it) st1.2 = true ∧ ¬ Expiration it < now) →
     st2 = st1 ∧ items st2.1 !! k = Some it).
Proof.
  intros Hnd Hk st1 st2 st3.
  rewrite fmap_app, fmap_cons in Hnd. apply NoDup_app in Hnd as (_ & Hpre & Hpost).
  apply NoDup_cons in Hpost as [Hpost _].
  assert (k ∉ pre.*1) as Hpre' by (intros Hin; apply (Hpre _ Hin); by left).
  assert (items st1.1 !! k = Some it) as H1.
  { subst st1. by rewrite updateLoop_other. }
  split; [done|]. split.
  { subst st3. rewrite foldl_app. cbn [foldl]. fold st1. fold st2.
    destruct st2 as [c2 h2]. by rewrite updateLoop_other. }
  subst st2. destruct st1 as [c1 h1]. cbn [fst snd] in *.
  rewrite updateVisit_unfold, H1. split; intros Hm.
  - rewrite decide_True by done. split; [done|]. cbn [fst].
    by rewrite upgradeItem_items, lookup_insert_eq.
  - by rewrite decide_False by done.
Qed.

(** Every stored key keeps its item or has it updated. *)
Lemma updateLoop_lookup exp visits c h k it :
  NoDup visits.*1 → items c !! k = Some it →
  let c' := (foldl (updateVisit isUpdated update exp) (c, h) visits).1 in
  items c' !! k = Some it ∨
  items c' !! k = Some (mkItem (Value it) exp (u64_succ (Frequency it))).
Proof.
  intros Hnd Hk c'. destruct (decide (k ∈ visits.*1)) as [Hin|Hin].
  - apply list_elem_of_fmap in Hin as ([k' now] & Hk' & Hin). cbn in Hk'. subst k'.
    apply list_elem_of_split in Hin as (pre & post & ->).
    destruct (updateLoop_at exp pre k now post c h it Hnd Hk) as (_ & H3 & Hy & Hn).
    subst c'. rewrite H3.
    destruct (decide (isUpdated (Value it) (foldl (updateVisit isUpdated update exp) (c, h) pre).2
                      = true ∧ ¬ Expiration it < now)) as [Hm|Hm].
    + right. by apply Hy.
    + left. by apply Hn.
  - left. subst c'. by rewrite updateLoop_other.
Qed.

Lemma updateLoop_structOk exp visits c h :
  NoDup visits.*1 → structOk c →
  (∀ k it, k ∈ visits.*1 → items c !! k = Some it → Frequency it < MaxUint64) →
  structOk (foldl (updateVisit isUpdated update exp) (c, h) visits).1.
Proof.
  revert c h. induction visits as [|[key t] visits IH]; intros c h Hnd Hc Hlt; [done|].
  rewrite fmap_cons in Hnd. apply NoDup_cons in Hnd as [Hkey Hnd]. cbn [foldl].
  destruct (updateVisit isUpdated update exp (c, h) (key, t)) as [c1 h1] eqn:E.
  apply IH; [done| |].
  - replace c1 with (c1, h1).1 by done. rewrite <- E. rewrite updateVisit_unfold.
    destruct (items c !! key) as [item|] eqn:Hk; [|done]. case_decide; [|done].
    cbn [fst]. eapply upgradeItem_structOk; [done..|].
    cbn [Frequency with_Expiration]. eapply Hlt; [|done]. rewrite fmap_cons. by left.
  - intros k it Hin. replace c1 with (c1, h1).1 by done. rewrite <- E.
    rewrite updateVisit_other by (intros ->; done).
    apply Hlt. rewrite fmap_cons. by right.
Qed.

End UpdateLoop.

(** *** The sweeper *)

Lemma gcVisit_lookup st key now k it :
  items (gcVisit st (key, now)).1 !! k = Some it → items st.1 !! k = Some it.
Proof.
  destruct st as [c fm]. rewrite gcVisit_unfold. destruct (items c !! key) eqn:Hk; [|done].
  case_decide; [|done]. cbn [fst]. rewrite removeKey_items.
  destruct (decide (k = key)) as [->|]; [by rewrite lookup_delete_eq|].
  by rewrite lookup_delete_ne.
Qed.

Lemma gcLoop_lookup visits st k it :
  items (foldl gcVisit st visits).1 !! k = Some it → items st.1 !! k = Some it.
Proof.
  revert st. induction visits as [|[key t] visits IH]; intros st; [done|].
  cbn [foldl]. intros Hk. apply IH in Hk. by apply gcVisit_lookup in Hk.
Qed.

Lemma gcTick_lookup visits c k it :
  items (gcTick visits c) !! k = Some it → items c !! k = Some it.
Proof.
  unfold gcTick. pose proof (gcLoop_lookup visits (c, false) k it) as Hl.
  destruct (foldl gcVisit (c, false) visits) as [c1 []]; apply Hl.
Qed.

Lemma gcTick_structOk visits c : structOk c → structOk (gcTick visits c).
Proof.
  intros [Hi Hm]. unfold gcTick.
  pose proof (foldl_invariant
    (λ st, indexOk st.1 ∧ minFreq st.1 = minFreq c ∧
           (∀ f, hasBucket st.1 f → hasBucket c f) ∧
           (st.2 = false → hasBucket c (minFreq c) → hasBucket st.1 (minFreq c)))
    gcVisit visits (c, false)) as Hfold.
  pose proof (gcLoop_lookup visits (c, false)) as Hsub.
  destruct (foldl gcVisit (c, false) visits) as [c1 fm].
  destruct Hfold as (Hi1 & Hmin & Hhas & Hkeep); [done| |].
  - intros [c2 fm2] [key t] (Hi2 & Hmin2 & Hhas2 & Hkeep2). rewrite gcVisit_unfold.
    destruct (items c2 !! key) as [item|] eqn:Hk; [|done]. case_decide; [|done].
    cbn [fst snd] in *. destruct (removeKey_fields item key c2) as (Hmf & _).
    split; [by apply removeKey_indexOk|]. split; [congruence|]. split.
    + intros f. rewrite removeKey_has. intros [? _]. by apply Hhas2.
    + intros Hfm Hb. apply orb_false_iff in Hfm as [Hne ->].
      apply bool_decide_eq_false in Hne.
      rewrite removeKey_has. split; [by apply Hkeep2|].
      intros Hf Hbe. apply Hne. split; [congruence|]. by rewrite <- Hf.
  - cbn [fst snd] in *. destruct fm.
    + split; [done|]. by apply recompute_minExact.
    + split; [done|]. intros Hne. apply map_choose in Hne as (k & it & Hk).
      apply Hsub in Hk. cbn [fst] in Hk.
      destruct Hm as [Hb Hlb]. { intros E. by rewrite E, lookup_empty in Hk. }
      rewrite Hmin. split; [by apply Hkeep|]. intros f Hf. apply Hlb. by apply Hhas.
Qed.

(** ** What an operation does to the item of one key *)

Lemma Set_lookup_new key value duration now keyToDelete c :
  0 < size c → items c !! key = None →
  items (Set_ nil key value duration now keyToDelete c) !! key =
    Some (mkItem value (getExp now duration c) 1).
Proof.
  intros Hpos Hk. rewrite Set_unfold, decide_False by lia. cbv zeta. rewrite Hk.
  by rewrite insertNew_items, lookup_insert_eq.
Qed.

Lemma Set_lookup_old key value duration now keyToDelete c old :
  0 < size c → items c !! key = Some old →
  items (Set_ nil key value duration now keyToDelete c) !! key =
    Some (mkItem value (getExp now duration c) (u64_succ (Frequency old))).
Proof.
  intros Hpos Hk. rewrite Set_unfold, decide_False by lia. cbv zeta. rewrite Hk.
  by rewrite upgradeItem_items, lookup_insert_eq.
Qed.

Lemma Set_lookup_other key value duration now keyToDelete c k it :
  k ≠ key → items (Set_ nil key value duration now keyToDelete c) !! k = Some it →
  items c !! k = Some it.
Proof.
  intros Hne. rewrite Set_unfold. case_decide; [done|]. cbv zeta.
  destruct (items c !! key) as [old|] eqn:Hk.
  - by rewrite upgradeItem_items, lookup_insert_ne.
  - rewrite insertNew_items, lookup_insert_ne by done. case_decide; [|done].
    rewrite evict_unfold. case_decide; [done|]. rewrite removeKey_items.
    destruct (decide (k = keyToDelete)) as [->|]; [by rewrite lookup_delete_eq|].
    by rewrite lookup_delete_ne.
Qed.

Lemma Get_lookup_hit key now c it :
  items c !! key = Some it → ¬ Expiration it < now →
  Get nil key now c = ((Value it, true), upgradeItem it key c) ∧
  items (Get nil key now c).2 !! key = Some (with_Frequency (u64_succ (Frequency it)) it).
Proof.
  intros Hk Hlive. rewrite Get_unfold, Hk, decide_False by done. split; [done|].
  cbn [snd]. by rewrite upgradeItem_items, lookup_insert_eq.
Qed.

Lemma Get_lookup_other key now c k :
  k ≠ key → items (Get nil key now c).2 !! k = items c !! k.
Proof.
  intros Hne. rewrite Get_unfold. destruct (items c !! key); [|done].
  case_decide; [done|]. cbn [snd]. by rewrite upgradeItem_items, lookup_insert_ne.
Qed.

Lemma Get_lookup key now c it :
  items c !! key = Some it →
  items (Get nil key now c).2 !! key = Some it ∨
  items (Get nil key now c).2 !! key = Some (with_Frequency (u64_succ (Frequency it)) it).
Proof.
  intros Hk. destruct (decide (Expiration it < now)).
  - left. by rewrite Get_unfold, Hk, decide_True.
  - right. by apply Get_lookup_hit.
Qed.

Lemma Delete_lookup key c k it :
  items (Delete key c).2 !! k = Some it → items c !! k = Some it.
Proof.
  rewrite Delete_unfold. destruct (items c !! key) eqn:Hk; [|done]. cbv zeta. cbn [snd].
  assert (items (removeKey i key c) !! k = Some it → items c !! k = Some it) as Hrem.
  { rewrite removeKey_items.
    destruct (decide (k = key)) as [->|]; [by rewrite lookup_delete_eq|].
    by rewrite lookup_delete_ne. }
  by case_decide.
Qed.

End Primitives.

(** ** Histories *)

Section Histories.
Context {V : Type} (nil : V) {Heap : Type}.
Implicit Types (c : InMemoryCache (V := V)) (o : Op V Heap) (ops : list (Op V Heap)).

Lemma run_app c ops1 ops2 : run nil c (ops1 ++ ops2) = run nil (run nil c ops1) ops2.
Proof. unfold run. by rewrite foldl_app. Qed.

Lemma historyOk_app c ops1 ops2 :
  historyOk nil c (ops1 ++ ops2) ↔
  historyOk nil c ops1 ∧ historyOk nil (run nil c ops1) ops2.
Proof.
  revert c. induction ops1 as [|o ops1 IH]; intros c; simpl; [naive_solver|].
  rewrite IH. naive_solver.
Qed.

Lemma historyOk_take c ops n : historyOk nil c ops → historyOk nil c (take n ops).
Proof.
  intros Hok. rewrite <- (take_drop n ops) in Hok. by apply historyOk_app in Hok as [? _].
Qed.

(** An invariant of the steps holds after every history. *)
Lemma run_invariant (P : InMemoryCache → Prop) c ops :
  (∀ c o, P c → opOk c o → P (step nil c o)) →
  P c → historyOk nil c ops → P (run nil c ops).
Proof.
  intros Hstep. revert c. induction ops as [|o ops IH]; intros c Hc Hok; [done|].
  destruct Hok as [Ho Hok]. simpl. apply IH; [by apply Hstep|done].
Qed.

Lemma step_capInv c o :
  0 < size c → capInv c → opOk c o →
  capInv (step nil c o) ∧ size (step nil c o) = size c.
Proof.
  intros Hpos Hc Ho. destruct o; simpl in *.
  - by apply Set_capInv.
  - by apply Get_capInv.
  - by apply Delete_capInv.
  - by apply Update_capInv.
  - by apply gcTick_capInv.
Qed.

Lemma run_capInv sz defaultExp cleanup ops :
  0 < sz → historyOk nil (NewInMemoryCache sz defaultExp cleanup) ops →
  capInv (run nil (NewInMemoryCache sz defaultExp cleanup) ops) ∧
  size (run nil (NewInMemoryCache sz defaultExp cleanup) ops) = sz.
Proof.
  intros Hpos Hok.
  apply (run_invariant (λ c, capInv c ∧ size c = sz)); [| |done].
  - intros c o [Hc Hs] Ho. destruct (step_capInv c o); [lia|done|done|]. split; [done|lia].
  - split; [by apply New_capInv|done].
Qed.

(** After a step, the item of a key is new with frequency 1, or it is the
    old one with its frequency kept or bumped once. *)
Lemma step_lookup c o k it' :
  opOk c o → items (step nil c o) !! k = Some it' →
  (items c !! k = None ∧ Frequency it' = 1) ∨
  (∃ it, items c !! k = Some it ∧
         (Frequency it' = Frequency it ∨ Frequency it' = u64_succ (Frequency it))).
Proof.
  intros Ho. destruct o as [key value duration now keyToDelete|key now|key|
                            isUpdated update duration now visits h|visits]; cbn [step].
  - destruct (decide (k = key)) as [->|Hne].
    + destruct (decide (size c ≤ 0)) as [Hsz|Hsz].
      { rewrite Set_unfold, decide_True by done. intros ?. right. eauto. }
      destruct (items c !! key) as [old|] eqn:Hk.
      * rewrite (Set_lookup_old nil _ _ _ _ _ _ old) by (done || lia).
        intros [= <-]. right. eauto.
      * rewrite Set_lookup_new by (done || lia). intros [= <-]. by left.
    + intros Hk. apply Set_lookup_other in Hk; [|done]. right. eauto.
  - destruct (decide (k = key)) as [->|Hne].
    + destruct (items c !! key) as [it|] eqn:Hk.
      * destruct (Get_lookup nil key now c it Hk) as [-> | ->]; intros [= <-]; right; eauto.
      * rewrite Get_unfold, Hk. cbn [snd]. by rewrite Hk.
    + rewrite Get_lookup_other by done. intros ?. right. eauto.
  - intros Hk. apply Delete_lookup in Hk. right. eauto.
  - destruct Ho as [Hnd _]. unfold Update. cbn [fst].
    destruct (items c !! k) as [it|] eqn:Hk.
    + destruct (updateLoop_lookup isUpdated update (getExp now duration c) visits c h k it
                  Hnd Hk) as [-> | ->]; intros [= <-]; right; eauto.
    + by rewrite updateLoop_absent.
  - intros Hk. apply gcTick_lookup in Hk. right. eauto.
Qed.

Lemma step_structOk n c o :
  0 ≤ n < MaxUint64 → structOk c → freqsWithin 1 n c → opOk c o →
  structOk (step nil c o) ∧ freqsWithin 1 (n + 1) (step nil c o).
Proof.
  intros Hn Hc Hw Ho.
  assert (∀ k it, items c !! k = Some it → Frequency it < MaxUint64) as Hlt.
  { intros k it Hk. specialize (Hw _ _ Hk). lia. }
  split.
  - destruct o as [key value duration now keyToDelete|key now|key|
                   isUpdated update duration now visits h|visits]; cbn [step].
    + apply Set_structOk; eauto.
    + apply Get_structOk; eauto.
    + by apply Delete_structOk.
    + destruct Ho as [Hnd _]. apply updateLoop_structOk; eauto.
    + by apply gcTick_structOk.
  - intros k it' Hk. destruct (step_lookup c o k it' Ho Hk) as [[_ ->]|(it & Hit & Hf)]; [lia|].
    specialize (Hw _ _ Hit). rewrite u64_succ_small in Hf by lia. lia.
Qed.

Lemma New_structOk sz defaultExp cleanup :
  structOk (NewInMemoryCache (V := V) sz defaultExp cleanup) ∧
  freqsWithin 1 0 (NewInMemoryCache (V := V) sz defaultExp cleanup).
Proof.
  assert (∀ k, items (NewInMemoryCache (V := V) sz defaultExp cleanup) !! k = None) as He.
  { intros k. apply lookup_empty. }
  split; [split; [split; [split|split]|]|].
  - intros f k. unfold inBucket, bucket. cbn. rewrite lookup_empty. set_solver.
  - intros f. unfold hasBucket. cbn. rewrite lookup_empty. by intros [].
  - intros k it. by rewrite He.
  - intros k it. by rewrite He.
  - intros Hne. by destruct Hne.
  - intros k it. by rewrite He.
Qed.

(** While a history has at most [2^64 - 1] operations, no counter wraps
    around and the full invariant holds. *)
Lemma run_structOk_from n c ops :
  0 ≤ n → n + Z.of_nat (length ops) ≤ MaxUint64 →
  structOk c → freqsWithin 1 n c → historyOk nil c ops →
  structOk (run nil c ops) ∧ freqsWithin 1 (n + Z.of_nat (length ops)) (run nil c ops).
Proof.
  revert n c. induction ops as [|o ops IH]; intros n c Hn Hlen Hc Hw Hok.
  - cbn. by rewrite Z.add_0_r.
  - destruct Hok as [Ho Hok]. cbn [length] in *. cbn [run foldl].
    destruct (step_structOk n c o) as [Hc' Hw']; [lia|done..|].
    replace (n + Z.of_nat (S (length ops))) with ((n + 1) + Z.of_nat (length ops)) by lia.
    apply IH; [lia|lia|done..].
Qed.

Lemma run_structOk sz defaultExp cleanup ops :
  Z.of_nat (length ops) ≤ MaxUint64 →
  historyOk nil (NewInMemoryCache sz defaultExp cleanup) ops →
  structOk (run nil (NewInMemoryCache sz defaultExp cleanup) ops) ∧
  freqsWithin 1 (Z.of_nat (length ops)) (run nil (NewInMemoryCache sz defaultExp cleanup) ops).
Proof.
  intros Hlen Hok. destruct (New_structOk sz defaultExp cleanup) as [Hc Hw].
  by apply (run_structOk_from 0).
Qed.

(** *** The invariants of the specification follow from the full invariant *)

Lemma structOk_minConsistent c : structOk c → minConsistent c.
Proof.
  intros [([_ Hn] & _) Hm] Hne. destruct (Hm Hne) as [Hb Hlb]. split.
  - destruct (Hn _ Hb) as [k Hk]. unfold inBucket in Hk. set_solver.
  - intros f Hf. apply Hlb. unfold hasBucket. unfold bucket in Hf.
    destruct (freqGroup c !! f); [eauto|done].
Qed.

Lemma structOk_membershipConsistent c : structOk c → membershipConsistent c.
Proof.
  intros [([Hs Hn] & Hc & _) _]. split.
  - intros k it Hk f. split.
    + intros Hin. by eapply sound_unique.
    + intros ->. by apply Hc.
  - intros f Hf. destruct (Hn f) as [k Hk]; [by eexists|].
    unfold inBucket, bucket in Hk. rewrite Hf in Hk. set_solver.
Qed.

Lemma structOk_freqsPositive c : structOk c → freqsPositive c.
Proof.
  intros [Hi _]. split.
  - intros k it Hk. by eapply Hi.
  - destruct (freqGroup c !! 0) as [b|] eqn:Hb; [|done].
    assert (hasBucket c 0) as H0 by by eexists.
    apply (indexOk_typed _ _ Hi) in H0. lia.
Qed.

(** C1.  Capacity bound: on a cache constructed with a capacity above 0,
    after each operation of any history of [Set], [Get], [Delete], [Update]
    and sweeper ticks, the store holds at most [capacity] entries. *)
Theorem capacity_bound sz defaultExp cleanup ops n :
  0 < sz →
  historyOk nil (NewInMemoryCache sz defaultExp cleanup) ops →
  len (items (run nil (NewInMemoryCache sz defaultExp cleanup) (take n ops))) ≤ sz.
Proof.
  intros Hpos Hok.
  destruct (run_capInv sz defaultExp cleanup (take n ops) Hpos) as [[_ [_ Hl]] Hs].
  - by apply historyOk_take.
  - by rewrite Hs in Hl.
Qed.

(** C2.  Eviction: in any state a history leads to, when [Set] inserts a key
    that is not stored while the store holds at least [capacity] entries,
    the key [keyToDelete] that the eviction loop meets was in the bucket at
    [minFreq] and in the store, it is the one key removed (the entries
    become the old ones without it, plus the new key), and afterwards it is
    in no bucket. *)
Theorem eviction_correct sz defaultExp cleanup ops key value duration now keyToDelete :
  let c := run nil (NewInMemoryCache sz defaultExp cleanup) ops in
  let o : Op V Heap := OpSet key value duration now keyToDelete in
  let c' := step nil c o in
  0 < sz →
  historyOk nil (NewInMemoryCache sz defaultExp cleanup) (ops ++ [o]) →
  items c !! key = None →
  size c ≤ len (items c) →
  inBucket c (minFreq c) keyToDelete ∧
  is_Some (items c !! keyToDelete) ∧
  keyToDelete ≠ key ∧
  items c' = <[key := mkItem value (getExp now duration c) 1]> (delete keyToDelete (items c)) ∧
  dom (items c') = {[key]} ∪ dom (items c) ∖ {[keyToDelete]} ∧
  (∀ f, ¬ inBucket c' f keyToDelete).
Proof.
  intros c o c' Hpos Hok Hk Hfull.
  apply historyOk_app in Hok as [Hok [Hv _]].
  destruct (run_capInv sz defaultExp cleanup ops Hpos Hok) as [Hc Hs]. fold c in Hc, Hs.
  destruct (Set_evicts nil key value duration now keyToDelete c) as (H1 & H2 & H3 & H4 & H5);
    [lia|done|done|done|done|].
  split_and!; try done. subst c' o. cbn [step]. rewrite H4, dom_insert_L, dom_delete_L. done.
Qed.

(** C3 (amended).  Minimum-frequency consistency: after each operation of a
    history of at most [2^64 - 1] operations, if there are entries then
    [minFreq] is the least index of a non-empty bucket. *)
Theorem min_frequency_consistent sz defaultExp cleanup ops n :
  Z.of_nat (length ops) ≤ MaxUint64 →
  historyOk nil (NewInMemoryCache sz defaultExp cleanup) ops →
  minConsistent (run nil (NewInMemoryCache sz defaultExp cleanup) (take n ops)).
Proof.
  intros Hlen Hok. apply structOk_minConsistent.
  apply run_structOk; [|by apply historyOk_take].
  rewrite length_take. lia.
Qed.

(** C4 (amended).  Bucket membership: after each operation of a history of
    at most [2^64 - 1] operations, every stored key is in the bucket of its
    frequency and in no other bucket, and no bucket of the index is
    empty. *)
Theorem bucket_membership_consistent sz defaultExp cleanup ops n :
  Z.of_nat (length ops) ≤ MaxUint64 →
  historyOk nil (NewInMemoryCache sz defaultExp cleanup) ops →
  membershipConsistent (run nil (NewInMemoryCache sz defaultExp cleanup) (take n ops)).
Proof.
  intros Hlen Hok. apply structOk_membershipConsistent.
  apply run_structOk; [|by apply historyOk_take].
  rewrite length_take. lia.
Qed.

(** C10 (amended).  After each operation of a history of at most [2^64 - 1]
    operations, every stored entry has a frequency of at least 1 and the
    index has no bucket 0.  Bucket 0 exists inside [Set] only: for a new key
    [Set] bumps from a state whose bucket 0 is the fresh singleton of that
    key. *)
Theorem frequencies_positive sz defaultExp cleanup ops n :
  Z.of_nat (length ops) ≤ MaxUint64 →
  historyOk nil (NewInMemoryCache sz defaultExp cleanup) ops →
  let c := run nil (NewInMemoryCache sz defaultExp cleanup) (take n ops) in
  freqsPositive c ∧
  ∀ key value duration now keyToDelete,
    0 < size c → items c !! key = None →
    ∃ c0, freqGroup c0 !! 0 = Some {[key]} ∧ minFreq c0 = 0 ∧
          Set_ nil key value duration now keyToDelete c =
            upgradeItem (mkItem value (getExp now duration c) 0) key c0.
Proof.
  intros Hlen Hok c. split.
  - apply structOk_freqsPositive.
    apply run_structOk; [|by apply historyOk_take].
    rewrite length_take. lia.
  - intros key value duration now keyToDelete Hpos Hk.
    rewrite Set_unfold, decide_False by lia. cbv zeta. rewrite Hk. unfold insertNew.
    eexists. split; [|split; [|reflexivity]].
    + cbn [freqGroup with_minFreq with_freqGroup Frequency]. apply lookup_insert_eq.
    + done.
Qed.

(** C5 (amended).  Frequencies.  [Set] creates a new entry at frequency 0
    and has bumped it to 1 when it returns.  A successful [Get], a [Set]
    over a stored key (which keeps the current frequency before the bump)
    and a match of [Update] increment the frequency by exactly 1 in [uint64]
    arithmetic.  Over any operation, the frequency of a key that stays in
    the store is kept or bumped once; it does not decrease as long as it is
    below [2^64 - 1], where the increment wraps around to 0. *)
Theorem frequency_semantics c :
  (∀ key value duration now keyToDelete,
     0 < size c → items c !! key = None →
     (∃ c0, Set_ nil key value duration now keyToDelete c =
              upgradeItem (mkItem value (getExp now duration c) 0) key c0) ∧
     items (Set_ nil key value duration now keyToDelete c) !! key =
       Some (mkItem value (getExp now duration c) 1)) ∧
  (∀ key now it,
     items c !! key = Some it → ¬ Expiration it < now →
     (Get nil key now c).1 = (Value it, true) ∧
     items (Get nil key now c).2 !! key =
       Some (with_Frequency (u64_succ (Frequency it)) it)) ∧
  (∀ key value duration now keyToDelete old,
     0 < size c → items c !! key = Some old →
     items (Set_ nil key value duration now keyToDelete c) !! key =
       Some (mkItem value (getExp now duration c) (u64_succ (Frequency old)))) ∧
  (∀ (isUpdated : V → Heap → bool) update duration now pre key t post h it,
     NoDup (pre ++ (key, t) :: post).*1 →
     items c !! key = Some it →
     isUpdated (Value it) (Update isUpdated update duration now pre (c, h)).2 = true →
     ¬ Expiration it < t →
     items (Update isUpdated update duration now (pre ++ (key, t) :: post) (c, h)).1 !! key =
       Some (mkItem (Value it) (getExp now duration c) (u64_succ (Frequency it)))) ∧
  (∀ f, 0 ≤ f < MaxUint64 → u64_succ f = f + 1) ∧
  (∀ o k it it',
     opOk c o → items c !! k = Some it → items (step nil c o) !! k = Some it' →
     (Frequency it' = Frequency it ∨ Frequency it' = u64_succ (Frequency it)) ∧
     (0 ≤ Frequency it < MaxUint64 → Frequency it ≤ Frequency it' ≤ Frequency it + 1)).
Proof.
  split_and!.
  - intros key value duration now keyToDelete Hpos Hk. split; [|by apply Set_lookup_new].
    rewrite Set_unfold, decide_False by lia. cbv zeta. rewrite Hk. unfold insertNew. eauto.
  - intros key now it Hk Hlive.
    destruct (Get_lookup_hit nil key now c it Hk Hlive) as [-> ?]. done.
  - intros. by apply Set_lookup_old.
  - intros isUpdated update duration now pre key t post h it Hnd Hk Hm Hlive.
    unfold Update in *. cbn [fst] in *.
    destruct (updateLoop_at isUpdated update (getExp now duration c) pre key t post c h it
                Hnd Hk) as (_ & -> & Hy & _).
    by apply Hy.
  - apply u64_succ_small.
  - intros o k it it' Ho Hk Hk'.
    destruct (step_lookup c o k it' Ho Hk') as [[Hnone _]|(it0 & Hit0 & Hf)]; [congruence|].
    assert (it0 = it) as -> by congruence. split; [done|].
    intros Hlt. rewrite u64_succ_small in Hf by done. lia.
Qed.

(** C6 (amended).  Round trip: on a cache whose capacity is above 0, [Set]
    with a positive [ttl] followed by [Get] of the same key, no later than
    the expiration [now + ttl], returns the value and [true]. *)
Theorem set_get_round_trip c key value ttl now now' keyToDelete :
  0 < size c → 0 < ttl → now' ≤ now + ttl →
  (Get nil key now' (Set_ nil key value ttl now keyToDelete c)).1 = (value, true).
Proof.
  intros Hpos Httl Hnow.
  assert (getExp now ttl c = now + ttl) as Hexp.
  { unfold getExp. by rewrite bool_decide_eq_false_2 by lia. }
  destruct (items c !! key) as [old|] eqn:Hk.
  - pose proof (Set_lookup_old nil key value ttl now keyToDelete c old Hpos Hk) as Hs.
    rewrite Hexp in Hs.
    destruct (Get_lookup_hit nil key now' _ _ Hs) as [-> _]; [cbn; lia|done].
  - pose proof (Set_lookup_new nil key value ttl now keyToDelete c Hpos Hk) as Hs.
    rewrite Hexp in Hs.
    destruct (Get_lookup_hit nil key now' _ _ Hs) as [-> _]; [cbn; lia|done].
Qed.

(** C7.  [Get] on a key that is absent, or whose expiration has passed,
    returns [(nil, false)] and leaves the whole state as it is: an expired
    entry stays in the store.  [Get] on a live key returns its value and
    changes that key's frequency and its place in the index only: every
    entry keeps its value and expiration, the other entries and the bucket
    membership of the other keys are unchanged, and so is the
    configuration; [minFreq] follows the move of the key. *)
Theorem get_frame c key now :
  (items c !! key = None → Get nil key now c = ((nil, false), c)) ∧
  (∀ it, items c !! key = Some it → Expiration it < now →
     Get nil key now c = ((nil, false), c)) ∧
  (∀ it, items c !! key = Some it → ¬ Expiration it < now →
     let c' := (Get nil key now c).2 in
     (Get nil key now c).1 = (Value it, true) ∧
     items c' = <[key := with_Frequency (u64_succ (Frequency it)) it]> (items c) ∧
     (∀ k it0, items c !! k = Some it0 →
        ∃ it1, items c' !! k = Some it1 ∧ Value it1 = Value it0 ∧
               Expiration it1 = Expiration it0 ∧ (k ≠ key → it1 = it0)) ∧
     (∀ k f, k ≠ key → (k ∈ bucket c' f ↔ k ∈ bucket c f)) ∧
     key ∈ bucket c' (u64_succ (Frequency it)) ∧
     ¬ key ∈ bucket c' (Frequency it) ∧
     size c' = size c ∧ defaultExpiration c' = defaultExpiration c ∧
     cleanupInterval c' = cleanupInterval c ∧
     (minFreq c' = minFreq c ∨ minFreq c' = u64_succ (Frequency it))).
Proof.
  split_and!.
  - intros Hk. by rewrite Get_unfold, Hk.
  - intros it Hk Hexp. by rewrite Get_unfold, Hk, decide_True.
  - intros it Hk Hlive c'. subst c'.
    destruct (Get_lookup_hit nil key now c it Hk Hlive) as [-> _]. cbn [fst snd].
    destruct (upgradeItem_fields it key c) as (? & ? & ?).
    split_and!; try done.
    + apply upgradeItem_items.
    + intros k it0 Hk0. rewrite upgradeItem_items.
      destruct (decide (k = key)) as [->|].
      * rewrite lookup_insert_eq. assert (it0 = it) as -> by congruence.
        eexists. split; [done|]. done.
      * rewrite lookup_insert_ne by done. eauto.
    + intros k f Hne. pose proof (upgradeItem_in it key c f k) as Hin.
      unfold inBucket in Hin. rewrite Hin. naive_solver.
    + pose proof (upgradeItem_in it key c (u64_succ (Frequency it)) key) as Hin.
      unfold inBucket in Hin. rewrite Hin. by left.
    + pose proof (upgradeItem_in it key c (Frequency it) key) as Hin.
      unfold inBucket in Hin. rewrite Hin.
      pose proof (u64_succ_neq (Frequency it)). naive_solver.
    + rewrite upgradeItem_minFreq. case_decide; [by right|by left].
Qed.

(** C8.  [Delete] returns the error if and only if the key is absent, and
    then changes nothing.  On a stored key it succeeds, removes the key from
    the entries and from the bucket of its frequency, and touches nothing
    else there; when that bucket becomes empty and was the minimum,
    [minFreq] is recomputed as the least of the remaining bucket indices
    ([MaxUint64] when none remains), and otherwise [minFreq] is kept.  The
    indices of the Go map are [uint64] values: none is above [MaxUint64]. *)
Theorem delete_semantics c key :
  ((Delete key c).1 ≠ None ↔ items c !! key = None) ∧
  (items c !! key = None → Delete key c = (Some "Key not found"%string, c)) ∧
  (∀ it, items c !! key = Some it →
     (∀ f, hasBucket c f → f ≤ MaxUint64) →
     let c' := (Delete key c).2 in
     (Delete key c).1 = None ∧
     items c' = delete key (items c) ∧
     ¬ key ∈ bucket c' (Frequency it) ∧
     (∀ k f, k ≠ key ∨ f ≠ Frequency it → (k ∈ bucket c' f ↔ k ∈ bucket c f)) ∧
     size c' = size c ∧ defaultExpiration c' = defaultExpiration c ∧
     cleanupInterval c' = cleanupInterval c ∧
     (minFreq c = Frequency it ∧ bucket c (Frequency it) ∖ {[key]} = ∅ →
        minFreq c' = findNewMinFreq c' ∧
        (∀ f, hasBucket c' f → minFreq c' ≤ f) ∧
        ((∃ f, hasBucket c' f) → hasBucket c' (minFreq c')) ∧
        ((∀ f, ¬ hasBucket c' f) → minFreq c' = MaxUint64)) ∧
     (¬ (minFreq c = Frequency it ∧ bucket c (Frequency it) ∖ {[key]} = ∅) →
        minFreq c' = minFreq c)).
Proof.
  rewrite Delete_unfold. split_and!.
  - destruct (items c !! key); naive_solver.
  - by intros ->.
  - intros it Hk Hty c'. subst c'. rewrite Hk. cbv zeta. cbn [fst snd].
    set (c1 := removeKey it key c).
    destruct (removeKey_fields it key c) as (Hmin & Hsz & Hde & Hcl). fold c1 in Hmin, Hsz, Hde, Hcl.
    pose proof (removeKey_items it key c) as Hit. fold c1 in Hit.
    assert (∀ f k, k ∈ bucket c1 f ↔ k ∈ bucket c f ∧ ¬ (f = Frequency it ∧ k = key)) as Hin.
    { intros f k. apply (removeKey_in it key c f k). }
    assert (∀ f, hasBucket c1 f → hasBucket c f) as Hhas.
    { intros f. unfold c1. rewrite removeKey_has. naive_solver. }
    unfold minBucketEmptied. case_decide as He.
    + cbn [items size defaultExpiration cleanupInterval minFreq with_minFreq].
      change (bucket (with_minFreq (findNewMinFreq c1) c1)) with (bucket c1).
      change (hasBucket (with_minFreq (findNewMinFreq c1) c1)) with (hasBucket c1).
      split_and!; try done.
      * rewrite Hin. naive_solver.
      * intros k f Hne. rewrite Hin. naive_solver.
      * intros _. destruct (findNewMinFreq_spec c1) as (Hmax & Hlb & Hcases).
        split_and!; [done|done| |].
        -- intros Hex. apply findNewMinFreq_exact; [|done]. intros f Hf. apply Hty. by apply Hhas.
        -- intros Hno. destruct Hcases as [?|Hb]; [done|]. by apply Hno in Hb.
    + split_and!; try done.
      * rewrite Hin. naive_solver.
      * intros k f Hne. rewrite Hin. naive_solver.
Qed.

(** C9.  [Update] walks the store once.  An entry that is not expired when
    it is visited and whose value satisfies the predicate then has the
    mutator applied to its value, its expiration set to [now + ttl] (or
    [now + defaultExpiration] when [ttl ≤ 0]) and its frequency bumped
    once ([u64_succ], the [+ 1] of [uint64]).  Any other entry keeps its
    value, expiration and frequency, and the heap is left alone at its
    visit.  No entry is deleted or added: expired entries stay. *)
Theorem update_semantics (isUpdated : V → Heap → bool) update ttl now visits c h :
  rangeWalk (items c) visits →
  let exp := now + (if bool_decide (ttl ≤ 0) then defaultExpiration c else ttl) in
  let c' := (Update isUpdated update ttl now visits (c, h)).1 in
  (∀ k, items c' !! k = None ↔ items c !! k = None) ∧
  (∀ k, is_Some (items c !! k) → ∃ pre t post, visits = pre ++ (k, t) :: post) ∧
  (∀ pre k t post it,
     visits = pre ++ (k, t) :: post → items c !! k = Some it →
     let h1 := (Update isUpdated update ttl now pre (c, h)).2 in
     let h2 := (Update isUpdated update ttl now (pre ++ [(k, t)]) (c, h)).2 in
     (isUpdated (Value it) h1 = true ∧ ¬ Expiration it < t →
        h2 = update (Value it) h1 ∧
        items c' !! k = Some (mkItem (Value it) exp (u64_succ (Frequency it)))) ∧
     (¬ (isUpdated (Value it) h1 = true ∧ ¬ Expiration it < t) →
        h2 = h1 ∧ items c' !! k = Some it)).
Proof.
  intros [Hnd Hdom] exp c'. subst c'. unfold Update. cbn [fst].
  change (getExp now ttl c) with exp. split_and!.
  - intros k. split; [|apply updateLoop_absent].
    destruct (items c !! k) as [it|] eqn:Hk; [|done].
    destruct (updateLoop_lookup isUpdated update exp visits c h k it Hnd Hk) as [-> | ->]; done.
  - intros k Hk. apply elem_of_dom in Hk. rewrite <- Hdom in Hk.
    apply elem_of_list_to_set, list_elem_of_fmap in Hk as ([k' t] & Hk' & Hin).
    cbn in Hk'. subst k'. apply list_elem_of_split in Hin as (pre & post & ->). eauto.
  - intros pre k t post it -> Hk.
    destruct (updateLoop_at isUpdated update exp pre k t post c h it Hnd Hk)
      as (_ & -> & Hy & Hn).
    rewrite foldl_app. cbn [foldl].
    split; intros Hm.
    + destruct (Hy Hm) as [E ?]. split; [by rewrite E|done].
    + destruct (Hn Hm) as [E ?]. split; [by rewrite E|done].
Qed.

End Histories.

(** * Where the frequency counter wraps around

    A history of [2^64] operations brings one counter from [2^64 - 1] back to
    0.  The states on the way hold the single key ["a"]. *)

Section WrapAround.

Lemma step_getA f : step 0 (soloState f) getA = soloState (u64_succ f).
Proof.
  unfold getA, soloState. cbn [step]. rewrite Get_unfold. cbn [items].
  rewrite lookup_singleton_eq, decide_False by (cbn; lia). cbn [snd].
  rewrite upgradeItem_unfold. cbv zeta.
  rewrite deleteItemInGroup_unfold. cbv zeta. unfold removeFromBucket, bucket.
  cbn [Frequency freqGroup minFreq items defaultExpiration cleanupInterval size
       with_Frequency Value Expiration].
  rewrite !lookup_singleton_eq, lookup_insert_eq. cbn [default from_option id].
  rewrite decide_True by set_solver. cbn [fst snd freqGroup with_freqGroup].
  rewrite bool_decide_eq_true_2 by done.
  rewrite insert_singleton_eq, delete_insert_eq, delete_singleton_eq.
  rewrite lookup_empty. cbn [default from_option id].
  by rewrite insert_empty, (left_id_L ∅ (∪)).
Qed.

Lemma run_getA n f :
  0 ≤ f < 2 ^ 64 →
  run 0 (soloState f) (repeat getA n) = soloState ((f + Z.of_nat n) mod 2 ^ 64).
Proof.
  revert f. induction n as [|n IH]; intros f Hf.
  - cbn [repeat run foldl]. by rewrite Z.add_0_r, Z.mod_small.
  - cbn [repeat run foldl]. rewrite step_getA. fold (run 0 (soloState (u64_succ f)) (repeat getA n)).
    rewrite IH by (apply Z.mod_pos_bound; done). unfold u64_succ.
    rewrite Zplus_mod_idemp_l. f_equal. f_equal. lia.
Qed.

Lemma step_setA : step 0 freshCache setA = soloState 1.
Proof. vm_compute. reflexivity. Qed.

Lemma run_getsHistory n :
  run 0 freshCache (getsHistory n) = soloState ((1 + Z.of_nat n) mod 2 ^ 64).
Proof.
  unfold getsHistory. cbn [run foldl]. rewrite step_setA.
  by apply (run_getA n 1).
Qed.

Lemma historyOk_getsHistory n : historyOk 0 freshCache (getsHistory n).
Proof.
  unfold getsHistory. split; [by intros []|].
  generalize (step 0 freshCache setA). induction n as [|n IH]; intros c; [done|].
  split; [done|apply IH].
Qed.

Lemma wrapCount_Z : Z.of_nat wrapCount = MaxUint64.
Proof. unfold wrapCount. apply Z2Nat.id. unfold MaxUint64. lia. Qed.

Lemma brinkCount_Z : Z.of_nat brinkCount = MaxUint64 - 1.
Proof. unfold brinkCount. apply Z2Nat.id. unfold MaxUint64. lia. Qed.

Lemma length_getsHistory n : Z.of_nat (length (getsHistory n)) = Z.of_nat n + 1.
Proof. unfold getsHistory. cbn [length]. rewrite repeat_length. lia. Qed.

Lemma historyOk_get {V Heap} (nil : V) (c : InMemoryCache) key now :
  historyOk (Heap := Heap) nil c [OpGet key now].
Proof. done. Qed.

(** The counts are never unfolded: the facts are proved for any [n] of the
    right size. *)
Section Counts.
Variable n : nat.

Section Wrap.
Hypothesis Hn : Z.of_nat n = MaxUint64.

Lemma run_wrap : run 0 freshCache (getsHistory n) = soloState 0.
Proof using Hn. rewrite run_getsHistory, Hn. reflexivity. Qed.

Lemma historyOk_wrap_then ops :
  historyOk 0 (soloState 0) ops → historyOk 0 freshCache (getsHistory n ++ ops).
Proof using Hn.
  intros Hok. apply historyOk_app. split; [apply historyOk_getsHistory|].
  rewrite run_wrap. exact Hok.
Qed.

Lemma wrap_leaves_bucket_zero :
  historyOk 0 freshCache (getsHistory n) ∧
  items (run 0 freshCache (getsHistory n)) !! "a"%string = Some (mkItem 7 1000 0) ∧
  freqGroup (run 0 freshCache (getsHistory n)) !! 0 = Some {["a"%string]} ∧
  ¬ freqsPositive (run 0 freshCache (getsHistory n)).
Proof using Hn.
  split; [apply historyOk_getsHistory|]. rewrite run_wrap.
  assert (items (soloState 0) !! "a"%string = Some (mkItem 7 1000 0)) as Ha
    by apply lookup_singleton_eq.
  split; [exact Ha|]. split; [apply lookup_singleton_eq|].
  intros [Hf _]. specialize (Hf _ _ Ha). cbn in Hf. lia.
Qed.

Lemma wrap_then_set_orphans_key :
  let ops := getsHistory n ++ [OpSet "b" 8 0 0 "a"] in
  historyOk 0 freshCache ops ∧
  items (run 0 freshCache ops) !! "a"%string = Some (mkItem 7 1000 0) ∧
  bucket (run 0 freshCache ops) 0 = ∅ ∧
  ¬ membershipConsistent (run 0 freshCache ops).
Proof using Hn.
  cbv zeta. split; [apply historyOk_wrap_then; compute_done|].
  rewrite run_app, run_wrap.
  set (c := run 0 (soloState 0) _).
  assert (items c !! "a"%string = Some (mkItem 7 1000 0)) as Ha by (vm_compute; reflexivity).
  assert (bucket c 0 = ∅) as Hb by (vm_compute; reflexivity).
  clearbody c.
  split; [exact Ha|]. split; [exact Hb|].
  intros [Hm _]. specialize (Hm _ _ Ha 0). rewrite Hb in Hm. cbn in Hm.
  destruct Hm as [_ Hm]. specialize (Hm eq_refl). set_solver.
Qed.

Lemma wrap_then_stale_minFreq :
  let ops := getsHistory n ++ [OpSet "b" 8 0 0 "a"; OpDelete "b"; OpGet "a" 0] in
  historyOk 0 freshCache ops ∧
  items (run 0 freshCache ops) !! "a"%string = Some (mkItem 7 1000 1) ∧
  bucket (run 0 freshCache ops) 1 = {["a"%string]} ∧
  minFreq (run 0 freshCache ops) = MaxUint64 ∧
  ¬ minConsistent (run 0 freshCache ops).
Proof using Hn.
  cbv zeta. split; [apply historyOk_wrap_then; compute_done|].
  rewrite run_app, run_wrap.
  set (c := run 0 (soloState 0) _).
  assert (items c !! "a"%string = Some (mkItem 7 1000 1)) as Ha by (vm_compute; reflexivity).
  assert (bucket c 1 = {["a"%string]}) as Hb by (vm_compute; reflexivity).
  assert (minFreq c = MaxUint64) as Hmin by (vm_compute; reflexivity).
  clearbody c.
  split; [exact Ha|]. split; [exact Hb|]. split; [exact Hmin|].
  intros Hm. destruct Hm as [_ Hlb].
  { intros E. by rewrite E, lookup_empty in Ha. }
  specialize (Hlb 1). rewrite Hb, Hmin in Hlb. unfold MaxUint64 in Hlb.
  assert ({["a"%string]} ≠@{gset string} ∅) as Hne by set_solver.
  specialize (Hlb Hne). lia.
Qed.

End Wrap.

Section Brink.
Hypothesis Hn : Z.of_nat n = MaxUint64 - 1.

Lemma run_brink : run 0 freshCache (getsHistory n) = soloState MaxUint64.
Proof using Hn. rewrite run_getsHistory, Hn. reflexivity. Qed.

Lemma brink_get_wraps :
  let c := run 0 freshCache (getsHistory n) in
  historyOk 0 freshCache (getsHistory n ++ [getA]) ∧
  items c !! "a"%string = Some (mkItem 7 1000 MaxUint64) ∧
  (Get 0 "a" 0 c).1 = (7, true) ∧
  items (Get 0 "a" 0 c).2 !! "a"%string = Some (mkItem 7 1000 0) ∧
  ¬ (∀ it it', items c !! "a"%string = Some it →
               items (step 0 c getA) !! "a"%string = Some it' →
               Frequency it ≤ Frequency it').
Proof using Hn.
  cbv zeta. rewrite run_brink.
  split. { apply historyOk_app. split; [apply historyOk_getsHistory|apply historyOk_get]. }
  assert (items (soloState MaxUint64) !! "a"%string = Some (mkItem 7 1000 MaxUint64)) as Ha
    by apply lookup_singleton_eq.
  pose proof (step_getA MaxUint64) as Hstep. rewrite u64_succ_max in Hstep.
  unfold getA in Hstep. cbn [step] in Hstep.
  split; [exact Ha|]. split; [vm_compute; reflexivity|]. rewrite Hstep.
  assert (items (soloState 0) !! "a"%string = Some (mkItem 7 1000 0)) as H0
    by apply lookup_singleton_eq.
  split; [exact H0|]. intros Hmono. unfold getA in Hmono. cbn [step] in Hmono.
  rewrite Hstep in Hmono. specialize (Hmono _ _ Ha H0). cbn in Hmono.
  unfold MaxUint64 in Hmono. lia.
Qed.

End Brink.
End Counts.

Lemma length_wrapHistory : Z.of_nat (length wrapHistory) = MaxUint64 + 1.
Proof. unfold wrapHistory. rewrite length_getsHistory, wrapCount_Z. reflexivity. Qed.

(** C10, counterexample.  After [Set] and [2^64 - 1] hits, a history of
    [2^64] operations, the entry has frequency 0 and the index has a
    bucket 0. *)
Lemma frequencies_positive_counterexample :
  Z.of_nat (length wrapHistory) = MaxUint64 + 1 ∧
  historyOk 0 freshCache wrapHistory ∧
  items (run 0 freshCache wrapHistory) !! "a"%string = Some (mkItem 7 1000 0) ∧
  freqGroup (run 0 freshCache wrapHistory) !! 0 = Some {["a"%string]} ∧
  ¬ freqsPositive (run 0 freshCache wrapHistory).
Proof. exact (conj length_wrapHistory (wrap_leaves_bucket_zero wrapCount wrapCount_Z)). Qed.

(** C4, counterexample.  One more [Set], of a new key, replaces bucket 0:
    ["a"] is stored with frequency 0 and is in no bucket. *)
Lemma bucket_membership_counterexample :
  let ops := wrapHistory ++ [OpSet "b" 8 0 0 "a"] in
  historyOk 0 freshCache ops ∧
  items (run 0 freshCache ops) !! "a"%string = Some (mkItem 7 1000 0) ∧
  bucket (run 0 freshCache ops) 0 = ∅ ∧
  ¬ membershipConsistent (run 0 freshCache ops).
Proof. exact (wrap_then_set_orphans_key wrapCount wrapCount_Z). Qed.

(** C3, counterexample.  Deleting that key and reading ["a"] again leaves
    ["a"] alone in bucket 1 while [minFreq] is [2^64 - 1]. *)
Lemma min_frequency_counterexample :
  let ops := wrapHistory ++ [OpSet "b" 8 0 0 "a"; OpDelete "b"; OpGet "a" 0] in
  historyOk 0 freshCache ops ∧
  items (run 0 freshCache ops) !! "a"%string = Some (mkItem 7 1000 1) ∧
  bucket (run 0 freshCache ops) 1 = {["a"%string]} ∧
  minFreq (run 0 freshCache ops) = MaxUint64 ∧
  ¬ minConsistent (run 0 freshCache ops).
Proof. exact (wrap_then_stale_minFreq wrapCount wrapCount_Z). Qed.

(** C5, counterexample.  With the counter at [2^64 - 1], a successful [Get]
    takes the frequency of a key that stays in the store down to 0. *)
Lemma frequency_semantics_counterexample :
  let c := run 0 freshCache brinkHistory in
  historyOk 0 freshCache (brinkHistory ++ [getA]) ∧
  items c !! "a"%string = Some (mkItem 7 1000 MaxUint64) ∧
  (Get 0 "a" 0 c).1 = (7, true) ∧
  items (Get 0 "a" 0 c).2 !! "a"%string = Some (mkItem 7 1000 0) ∧
  ¬ (∀ it it', items c !! "a"%string = Some it →
               items (step 0 c getA) !! "a"%string = Some it' →
               Frequency it ≤ Frequency it').
Proof. exact (brink_get_wraps brinkCount brinkCount_Z). Qed.

(** C6, counterexample.  On a cache of capacity 0, [Set] stores nothing and
    the [Get] that follows finds nothing. *)
Lemma set_get_round_trip_counterexample :
  let c := NewInMemoryCache (V := Z) 0 1000 0 in
  Set_ 0 "k" 5 10 0 "" c = c ∧
  (Get 0 "k" 0 (Set_ 0 "k" 5 10 0 "" c)).1 = (0, false) ∧
  (Get 0 "k" 0 (Set_ 0 "k" 5 10 0 "" c)).1 ≠ (5, true).
Proof. vm_compute. split_and!; done. Qed.

End WrapAround.

(** * The theorems at concrete inputs *)

Section Witnesses.

Lemma capacity_bound_witness :
  0 < 2 ∧ historyOk 0 scenarioCache scenarioOps ∧
  len (items (run 0 scenarioCache (take 4 scenarioOps))) ≤ 2.
Proof.
  split; [lia|]. split; [compute_done|].
  apply (capacity_bound 0 2 1000 1 scenarioOps 4); [lia|compute_done].
Defined.

Lemma eviction_correct_witness :
  items fullCache !! "c"%string = None ∧ size fullCache ≤ len (items fullCache) ∧
  inBucket fullCache (minFreq fullCache) "b" ∧
  dom (items (Set_ 0 "c" 3 0 2 "b" fullCache)) = {["c"%string]} ∪ dom (items fullCache) ∖ {["b"%string]}.
Proof.
  split; [compute_done|]. split; [compute_done|].
  destruct (eviction_correct (Heap := Z) 0 2 1000 1 (take 3 scenarioOps) "c" 3 0 2 "b")
    as (H1 & _ & _ & _ & H5 & _); [lia|compute_done|compute_done|compute_done|].
  split; [exact H1|exact H5].
Defined.

Lemma min_frequency_consistent_witness :
  Z.of_nat (length scenarioOps) ≤ MaxUint64 ∧ historyOk 0 scenarioCache scenarioOps ∧
  minConsistent (run 0 scenarioCache (take 3 scenarioOps)).
Proof.
  split; [compute_done|]. split; [compute_done|].
  apply (min_frequency_consistent 0 2 1000 1 scenarioOps 3); compute_done.
Defined.

Lemma bucket_membership_consistent_witness :
  Z.of_nat (length scenarioOps) ≤ MaxUint64 ∧ historyOk 0 scenarioCache scenarioOps ∧
  membershipConsistent (run 0 scenarioCache (take 3 scenarioOps)).
Proof.
  split; [compute_done|]. split; [compute_done|].
  apply (bucket_membership_consistent 0 2 1000 1 scenarioOps 3); compute_done.
Defined.

Lemma frequencies_positive_witness :
  Z.of_nat (length scenarioOps) ≤ MaxUint64 ∧ historyOk 0 scenarioCache scenarioOps ∧
  freqsPositive (run 0 scenarioCache (take 3 scenarioOps)).
Proof.
  split; [compute_done|]. split; [compute_done|].
  apply (frequencies_positive 0 2 1000 1 scenarioOps 3); compute_done.
Defined.

Lemma frequency_semantics_witness :
  items (Set_ 0 "c" 3 0 2 "b" fullCache) !! "c"%string =
    Some (mkItem 3 (getExp 2 0 fullCache) 1) ∧
  items (Get 0 "a" 3 fullCache).2 !! "a"%string =
    Some (with_Frequency (u64_succ 2) (mkItem 1 1000 2)) ∧
  items (Set_ 0 "a" 9 0 2 "b" fullCache) !! "a"%string =
    Some (mkItem 9 (getExp 2 0 fullCache) (u64_succ 2)) ∧
  items (Update (λ v (_ : Z), bool_decide (v = 1)) (λ v h, h + v) 0 3
                ([] ++ [("a"%string, 3); ("b"%string, 3)]) (fullCache, 0)).1 !! "a"%string =
    Some (mkItem 1 (getExp 3 0 fullCache) (u64_succ 2)) ∧
  u64_succ 2 = 2 + 1 ∧
  (∀ it', items (step (Heap := Z) 0 fullCache (OpGet "a" 3)) !! "a"%string = Some it' →
          2 ≤ Frequency it' ≤ 2 + 1).
Proof.
  destruct (frequency_semantics (Heap := Z) 0 fullCache) as (H1 & H2 & H3 & H4 & H5 & H6).
  split_and!.
  - apply (H1 "c"%string 3 0 2 "b"%string); compute_done.
  - apply (H2 "a"%string 3 (mkItem 1 1000 2)); compute_done.
  - apply (H3 "a"%string 9 0 2 "b"%string (mkItem 1 1000 2)); compute_done.
  - apply (H4 (λ v _, bool_decide (v = 1)) (λ v h, h + v) 0 3 [] "a"%string 3
              [("b"%string, 3)] 0 (mkItem 1 1000 2)); compute_done.
  - apply (H5 2). compute_done.
  - intros it' Hit'.
    apply (H6 (OpGet "a" 3) "a"%string (mkItem 1 1000 2) it'); [exact I|compute_done|exact Hit'|].
    compute_done.
Defined.

Lemma set_get_round_trip_witness :
  0 < size fullCache ∧ 0 < 10 ∧ 7 ≤ 2 + 10 ∧
  (Get 0 "c" 7 (Set_ 0 "c" 3 10 2 "b" fullCache)).1 = (3, true).
Proof.
  split; [compute_done|]. split; [lia|]. split; [lia|].
  apply (set_get_round_trip 0 fullCache "c" 3 10 2 7 "b"); [compute_done|lia|lia].
Defined.

Lemma get_frame_witness :
  Get 0 "zz" 3 fullCache = ((0, false), fullCache) ∧
  Get 0 "a" 2000 fullCache = ((0, false), fullCache) ∧
  (Get 0 "a" 3 fullCache).1 = (1, true) ∧
  items (Get 0 "a" 3 fullCache).2 =
    <["a"%string := with_Frequency (u64_succ 2) (mkItem 1 1000 2)]> (items fullCache).
Proof.
  split_and!.
  - apply (proj1 (get_frame 0 fullCache "zz" 3)). compute_done.
  - apply (proj1 (proj2 (get_frame 0 fullCache "a" 2000)) (mkItem 1 1000 2)); compute_done.
  - apply (proj2 (proj2 (get_frame 0 fullCache "a" 3)) (mkItem 1 1000 2)); compute_done.
  - apply (proj2 (proj2 (get_frame 0 fullCache "a" 3)) (mkItem 1 1000 2)); compute_done.
Defined.

Lemma fullCache_typed f : hasBucket fullCache f → f ≤ MaxUint64.
Proof.
  intros Hf.
  destruct (run_structOk (Heap := Z) 0 2 1000 1 (take 3 scenarioOps)) as [[Hi _] _];
    [compute_done|compute_done|].
  by apply (indexOk_typed _ _ Hi).
Qed.

Lemma delete_semantics_witness :
  Delete "zz" fullCache = (Some "Key not found"%string, fullCache) ∧
  (Delete "b" fullCache).1 = None ∧
  items (Delete "b" fullCache).2 = delete "b"%string (items fullCache) ∧
  minFreq (Delete "b" fullCache).2 = findNewMinFreq (Delete "b" fullCache).2 ∧
  hasBucket (Delete "b" fullCache).2 (minFreq (Delete "b" fullCache).2).
Proof.
  destruct (delete_semantics fullCache "zz") as (_ & Hzz & _).
  destruct (delete_semantics fullCache "b") as (_ & _ & Hb).
  destruct (Hb (mkItem 2 1000 1)) as (H1 & H2 & _ & _ & _ & _ & _ & H8 & _);
    [compute_done|exact fullCache_typed|].
  destruct H8 as (H81 & _ & H83 & _); [compute_done|].
  split_and!.
  - apply Hzz. compute_done.
  - exact H1.
  - exact H2.
  - exact H81.
  - apply H83. exists 2. compute_done.
Defined.

Lemma update_semantics_witness :
  let visits := [("a"%string, 3); ("b"%string, 3)] in
  let isUpdated := λ v (_ : Z), bool_decide (v = 1) in
  let update := λ v h, h + v in
  rangeWalk (items fullCache) visits ∧
  items (Update isUpdated update 0 3 visits (fullCache, 0)).1 !! "a"%string =
    Some (mkItem 1 (3 + 1000) (u64_succ 2)) ∧
  (Update isUpdated update 0 3 ([] ++ [("a"%string, 3)]) (fullCache, 0)).2 = 0 + 1 ∧
  items (Update isUpdated update 0 3 visits (fullCache, 0)).1 !! "b"%string =
    Some (mkItem 2 1000 1).
Proof.
  intros visits isUpdated update.
  assert (rangeWalk (items fullCache) visits) as Hw by compute_done.
  split; [exact Hw|].
  destruct (update_semantics isUpdated update 0 3 visits fullCache 0 Hw) as (_ & _ & Hv).
  destruct (Hv [] "a"%string 3 [("b"%string, 3)] (mkItem 1 1000 2)) as [Ha _];
    [reflexivity|compute_done|].
  destruct Ha as [Ha1 Ha2]; [split; compute_done|].
  destruct (Hv [("a"%string, 3)] "b"%string 3 [] (mkItem 2 1000 1)) as [_ Hb];
    [reflexivity|compute_done|].
  destruct Hb as [_ Hb2]; [compute_done|].
  split; [exact Ha2|]. split; [exact Ha1|exact Hb2].
Defined.

End Witnesses.

(** * Further properties of the operations *)

Section Further.
Context {V : Type} (nil : V) {Heap : Type}.
Implicit Types (c : InMemoryCache (V := V)) (o : Op V Heap) (ops : list (Op V Heap)).
Implicit Types (it item : Item (V := V)) (key k : string) (visits : list (string * Time)).

(** ** The configuration *)

Lemma evict_fields keyToDelete c :
  size (evict nil keyToDelete c) = size c ∧
  defaultExpiration (evict nil keyToDelete c) = defaultExpiration c ∧
  cleanupInterval (evict nil keyToDelete c) = cleanupInterval c.
Proof.
  rewrite evict_unfold. case_decide; [done|].
  destruct (removeKey_fields (itemAt nil c keyToDelete) keyToDelete c) as (_ & ? & ? & ?).
  done.
Qed.

Lemma step_fields c o :
  size (step nil c o) = size c ∧
  defaultExpiration (step nil c o) = defaultExpiration c ∧
  cleanupInterval (step nil c o) = cleanupInterval c.
Proof.
  destruct o as [key value duration now keyToDelete|key now|key|
                 isUpdated update duration now visits h|visits]; cbn [step].
  - rewrite Set_unfold. case_decide; [done|]. cbv zeta.
    destruct (items c !! key) as [old|]; [apply upgradeItem_fields|].
    destruct (insertNew_fields key (mkItem value (getExp now duration c) 0)
                (if decide (size c ≤ len (items c)) then evict nil keyToDelete c else c))
      as (_ & -> & -> & ->).
    case_decide; [apply evict_fields|done].
  - rewrite Get_unfold. destruct (items c !! key) as [item|]; [|done].
    case_decide; [done|]. apply upgradeItem_fields.
  - rewrite Delete_unfold. destruct (items c !! key) as [item|]; [|done].
    cbv zeta. cbn [snd]. destruct (removeKey_fields item key c) as (_ & ? & ? & ?).
    by case_decide.
  - unfold Update.
    apply (foldl_invariant (λ st : InMemoryCache * Heap,
             size st.1 = size c ∧ defaultExpiration st.1 = defaultExpiration c ∧
             cleanupInterval st.1 = cleanupInterval c)); [done|].
    intros [c1 h1] [key t] (Hs & Hd & Hc). rewrite updateVisit_unfold.
    destruct (items c1 !! key) as [item|]; [|done]. case_decide; [|done].
    cbn [fst] in *.
    destruct (upgradeItem_fields (with_Expiration (getExp now duration c) item) key c1)
      as (-> & -> & ->). done.
  - unfold gcTick.
    pose proof (foldl_invariant (λ st : InMemoryCache * bool,
             size st.1 = size c ∧ defaultExpiration st.1 = defaultExpiration c ∧
             cleanupInterval st.1 = cleanupInterval c) gcVisit visits (c, false)) as Hfold.
    destruct (foldl gcVisit (c, false) visits) as [c1 fm]. cbn [fst] in Hfold.
    destruct fm; apply Hfold; try done.
    all: intros [c2 fm2] [key t] (Hs & Hd & Hc); rewrite gcVisit_unfold;
      (destruct (items c2 !! key) as [item|]; [|done]); (case_decide; [|done]);
      cbn [fst] in *; destruct (removeKey_fields item key c2) as (_ & -> & -> & ->); done.
Qed.

(** X1.  No operation changes the configuration: after any history the
    capacity, the default expiration and the sweep interval are those the
    cache was constructed with. *)
Theorem configuration_is_fixed c ops :
  size (run nil c ops) = size c ∧
  defaultExpiration (run nil c ops) = defaultExpiration c ∧
  cleanupInterval (run nil c ops) = cleanupInterval c.
Proof.
  revert c. induction ops as [|o ops IH]; intros c; [done|].
  cbn [run foldl]. fold (run nil (step nil c o) ops).
  destruct (IH (step nil c o)) as (-> & -> & ->). apply step_fields.
Qed.

(** ** The empty store *)

Lemma updateLoop_empty (isUpdated : V → Heap → bool) update exp visits c h :
  items c = ∅ → foldl (updateVisit isUpdated update exp) (c, h) visits = (c, h).
Proof.
  intros He. induction visits as [|[key t] visits IH]; [done|].
  cbn [foldl]. by rewrite updateVisit_unfold, He, lookup_empty.
Qed.

Lemma gcLoop_empty visits c fm : items c = ∅ → foldl gcVisit (c, fm) visits = (c, fm).
Proof.
  intros He. induction visits as [|[key t] visits IH]; [done|].
  cbn [foldl]. by rewrite gcVisit_unfold, He, lookup_empty.
Qed.

(** X2.  On an empty store [Get] misses, [Delete] returns the error, and
    [Update] and a sweeper tick do nothing, whatever their inputs; the cache
    (and the heap of [Update]) is left as it is. *)
Theorem empty_store_operations c :
  items c = ∅ →
  (∀ key now, Get nil key now c = ((nil, false), c)) ∧
  (∀ key, Delete key c = (Some "Key not found"%string, c)) ∧
  (∀ (isUpdated : V → Heap → bool) update duration now visits h,
     Update isUpdated update duration now visits (c, h) = (c, h)) ∧
  (∀ visits, gcTick visits c = c).
Proof.
  intros He. split_and!.
  - intros key now. by rewrite Get_unfold, He, lookup_empty.
  - intros key. by rewrite Delete_unfold, He, lookup_empty.
  - intros. unfold Update. by apply updateLoop_empty.
  - intros visits. unfold gcTick. by rewrite gcLoop_empty.
Qed.

Lemma step_on_empty_nonpositive c o :
  size c ≤ 0 → items c = ∅ → step nil c o = c.
Proof.
  intros Hs He. destruct o as [key value duration now keyToDelete|key now|key|
                               isUpdated update duration now visits h|visits]; cbn [step].
  - by rewrite Set_unfold, decide_True.
  - by rewrite Get_unfold, He, lookup_empty.
  - by rewrite Delete_unfold, He, lookup_empty.
  - unfold Update. by rewrite updateLoop_empty.
  - unfold gcTick. by rewrite gcLoop_empty.
Qed.

Lemma run_on_empty_nonpositive c ops :
  size c ≤ 0 → items c = ∅ → run nil c ops = c.
Proof.
  intros Hs He. induction ops as [|o ops IH]; [done|].
  cbn [run foldl]. rewrite step_on_empty_nonpositive by done. exact IH.
Qed.

(** X3.  A cache constructed with a capacity of 0 or less never stores
    anything: after any history it is still the cache that was constructed,
    and every [Get] misses. *)
Theorem nonpositive_capacity_stores_nothing sz defaultExp cleanup ops :
  sz ≤ 0 →
  run nil (NewInMemoryCache sz defaultExp cleanup) ops = NewInMemoryCache sz defaultExp cleanup ∧
  ∀ key now,
    (Get nil key now (run nil (NewInMemoryCache sz defaultExp cleanup) ops)).1 = (nil, false).
Proof.
  intros Hsz.
  assert (run nil (NewInMemoryCache sz defaultExp cleanup) ops
          = NewInMemoryCache sz defaultExp cleanup) as Hrun
    by by apply run_on_empty_nonpositive.
  split; [done|]. intros key now. rewrite Hrun.
  rewrite Get_unfold. cbn [items NewInMemoryCache]. by rewrite lookup_empty.
Qed.

(** ** The sweeper *)

Lemma gcTick_items visits c :
  items (gcTick visits c) = items (foldl gcVisit (c, false) visits).1.
Proof. unfold gcTick. by destruct (foldl gcVisit (c, false) visits) as [c1 []]. Qed.

Lemma gcVisit_other (st : InMemoryCache (V := V) * bool) key now k :
  k ≠ key → items (gcVisit st (key, now)).1 !! k = items st.1 !! k.
Proof.
  intros Hne. destruct st as [c fm]. rewrite gcVisit_unfold.
  destruct (items c !! key) as [item|]; [|done]. case_decide; [|done].
  cbn [fst]. by rewrite removeKey_items, lookup_delete_ne.
Qed.

Lemma gcLoop_other visits (st : InMemoryCache (V := V) * bool) k :
  k ∉ visits.*1 → items (foldl gcVisit st visits).1 !! k = items st.1 !! k.
Proof.
  revert st. induction visits as [|[key t] visits IH]; intros st Hk; [done|].
  rewrite fmap_cons, not_elem_of_cons in Hk. destruct Hk as [Hne Hk]. cbn [foldl].
  rewrite IH by done. by apply gcVisit_other.
Qed.

Lemma gcLoop_at visits (st : InMemoryCache (V := V) * bool) k t it :
  NoDup visits.*1 → (k, t) ∈ visits → items st.1 !! k = Some it →
  items (foldl gcVisit st visits).1 !! k =
    if decide (Expiration it < t) then None else Some it.
Proof.
  revert st. induction visits as [|[key t0] visits IH]; intros st Hnd Hin Hk.
  { by apply not_elem_of_nil in Hin. }
  rewrite fmap_cons in Hnd. apply NoDup_cons in Hnd as [Hkey Hnd].
  cbn [foldl]. apply elem_of_cons in Hin as [[= <- <-]|Hin].
  - rewrite gcLoop_other by done. destruct st as [c fm]. cbn [fst] in Hk.
    rewrite gcVisit_unfold, Hk. case_decide; [|done].
    cbn [fst]. by rewrite removeKey_items, lookup_delete_eq.
  - apply IH; [done..|]. rewrite gcVisit_other; [done|].
    intros ->. apply Hkey. apply list_elem_of_fmap. by exists (key, t).
Qed.

(** X4.  A sweeper tick deletes the entries that are expired when it visits
    them, and only those: an entry that is still live at its visit is kept
    as it is, and no entry appears. *)
Theorem sweeper_removes_the_expired visits c :
  rangeWalk (items c) visits →
  (∀ k it, items c !! k = Some it →
     ∃ t, (k, t) ∈ visits ∧
          items (gcTick visits c) !! k = if decide (Expiration it < t) then None else Some it) ∧
  (∀ k, items c !! k = None → items (gcTick visits c) !! k = None).
Proof.
  intros [Hnd Hdom]. split.
  - intros k it Hk.
    assert (k ∈ visits.*1) as Hin.
    { apply (elem_of_list_to_set (C := gset string)). rewrite Hdom. apply elem_of_dom. eauto. }
    apply list_elem_of_fmap in Hin as ([k' t] & Hk' & Hin). cbn in Hk'. subst k'.
    exists t. split; [done|]. rewrite gcTick_items. by apply gcLoop_at.
  - intros k Hk. destruct (items (gcTick visits c) !! k) as [it|] eqn:E; [|done].
    apply gcTick_lookup in E. congruence.
Qed.

(** X5.  A sweeper tick that meets no expired entry changes nothing, not
    even [minFreq]. *)
Theorem sweeper_without_expired_is_noop visits c :
  (∀ k t it, (k, t) ∈ visits → items c !! k = Some it → ¬ Expiration it < t) →
  gcTick visits c = c.
Proof.
  intros Hlive. unfold gcTick.
  assert (foldl gcVisit (c, false) visits = (c, false)) as ->; [|done].
  induction visits as [|[key t] visits IH]; [done|].
  cbn [foldl]. rewrite gcVisit_unfold.
  destruct (items c !! key) as [item|] eqn:Hk.
  - rewrite decide_False by (eapply Hlive; [by left|done]).
    apply IH. intros k t' it Hin. apply Hlive. by right.
  - apply IH. intros k t' it Hin. apply Hlive. by right.
Qed.

(** X6.  A sweeper tick keeps the full invariant of the index, whichever
    keys it visits and removes: the one recomputation of [minFreq] after the
    loop is enough.  Afterwards [minFreq] is the least non-empty bucket, every
    key is in the bucket of its frequency only, and no frequency is 0. *)
Theorem sweeper_keeps_invariant visits c :
  structOk c →
  structOk (gcTick visits c) ∧ minConsistent (gcTick visits c) ∧
  membershipConsistent (gcTick visits c) ∧ freqsPositive (gcTick visits c).
Proof.
  intros Hc. pose proof (gcTick_structOk visits c Hc) as Hc'.
  split_and!; [done| | |].
  - by apply structOk_minConsistent.
  - by apply structOk_membershipConsistent.
  - by apply structOk_freqsPositive.
Qed.

(** ** Update *)

(** X7.  An [Update] in which no visited entry is both matched by the
    predicate and live changes neither the cache nor the heap: expiration
    times are refreshed for matches only. *)
Theorem update_without_match_is_noop (isUpdated : V → Heap → bool) update
    duration now visits c h :
  (∀ k t it, (k, t) ∈ visits → items c !! k = Some it →
     isUpdated (Value it) h = false ∨ Expiration it < t) →
  Update isUpdated update duration now visits (c, h) = (c, h).
Proof.
  intros Hno. unfold Update. cbn [fst]. generalize (getExp now duration c). intros exp.
  induction visits as [|[key t] visits IH]; [done|].
  cbn [foldl]. rewrite updateVisit_unfold.
  destruct (items c !! key) as [item|] eqn:Hk.
  - rewrite decide_False.
    + apply IH. intros k t' it Hin. apply Hno. by right.
    + intros [Hm Hl]. destruct (Hno key t item) as [Hf|He]; [by left|done| |done].
      congruence.
  - apply IH. intros k t' it Hin. apply Hno. by right.
Qed.

(** ** Set, Get and Delete together *)

(** X8.  Lazy expiration: once the expiration that [Set] gave an entry has
    passed, [Get] of the key misses and changes nothing, so the entry is
    still stored and still counts towards the capacity.  With [ttl ≤ 0] the
    expiration is [now + defaultExpiration]. *)
Theorem expired_entry_lingers c key value ttl now now' keyToDelete :
  0 < size c →
  now + (if bool_decide (ttl ≤ 0) then defaultExpiration c else ttl) < now' →
  let c1 := Set_ nil key value ttl now keyToDelete c in
  Get nil key now' c1 = ((nil, false), c1) ∧
  (∃ it, items c1 !! key = Some it ∧ Value it = value) ∧
  0 < len (items c1).
Proof.
  intros Hpos Hexp c1.
  assert (∃ f, items c1 !! key = Some (mkItem value (getExp now ttl c) f)) as [f Hk].
  { subst c1. destruct (items c !! key) as [old|] eqn:Hk.
    - eexists. by apply Set_lookup_old.
    - eexists. by apply Set_lookup_new. }
  split_and!.
  - by rewrite Get_unfold, Hk, decide_True.
  - eauto.
  - unfold len. assert (base.size (items c1) ≠ 0%nat); [|lia].
    apply map_size_non_empty_iff. intros E. by rewrite E, lookup_empty in Hk.
Qed.

Lemma Delete_lookup_key key c : items (Delete key c).2 !! key = None.
Proof.
  rewrite Delete_unfold. destruct (items c !! key) as [item|] eqn:Hk; [|done].
  cbv zeta. cbn [snd].
  assert (items (removeKey item key c) !! key = None) as Hrem
    by by rewrite removeKey_items, lookup_delete_eq.
  by case_decide.
Qed.

(** X9.  After [Delete] of a key, whatever it returned, the key is absent:
    [Get] misses, and a second [Delete] returns the error and changes
    nothing. *)
Theorem delete_makes_absent c key :
  let c1 := (Delete key c).2 in
  items c1 !! key = None ∧
  (∀ now, Get nil key now c1 = ((nil, false), c1)) ∧
  Delete key c1 = (Some "Key not found"%string, c1).
Proof.
  intros c1. pose proof (Delete_lookup_key key c) as Hk. fold c1 in Hk. split_and!.
  - done.
  - intros now. by rewrite Get_unfold, Hk.
  - by rewrite Delete_unfold, Hk.
Qed.

(** X10.  [Set] over a stored key never evicts: even on a full store the
    entries are the old ones with that key's item replaced (new value, new
    expiration, frequency bumped), whatever the eviction loop would have
    met. *)
Theorem overwrite_never_evicts c key value duration now keyToDelete old :
  0 < size c → items c !! key = Some old →
  let c' := Set_ nil key value duration now keyToDelete c in
  items c' = <[key := mkItem value (getExp now duration c) (u64_succ (Frequency old))]> (items c) ∧
  dom (items c') = dom (items c) ∧
  len (items c') = len (items c).
Proof.
  intros Hpos Hk c'.
  assert (items c' = <[key := mkItem value (getExp now duration c) (u64_succ (Frequency old))]>
                       (items c)) as Hit.
  { subst c'. rewrite Set_unfold, decide_False by lia. cbv zeta. rewrite Hk.
    by rewrite upgradeItem_items. }
  split; [done|]. rewrite Hit. split.
  - rewrite dom_insert_L. apply (elem_of_dom_2 (D := gset string)) in Hk. set_solver.
  - apply len_insert_Some. eauto.
Qed.

Lemma Set_new_not_full key value duration now keyToDelete c :
  0 < size c → items c !! key = None → len (items c) < size c →
  Set_ nil key value duration now keyToDelete c =
    insertNew key (mkItem value (getExp now duration c) 0) c.
Proof.
  intros Hpos Hk Hlen. rewrite Set_unfold, decide_False by lia. cbv zeta. rewrite Hk.
  by rewrite decide_False by lia.
Qed.

(** X11.  [Set] of a new key on a store that is not full evicts nothing: the
    entries are the old ones plus the new key at frequency 1, and [minFreq]
    is 1. *)
Theorem insert_below_capacity c key value duration now keyToDelete :
  0 < size c → items c !! key = None → len (items c) < size c →
  let c' := Set_ nil key value duration now keyToDelete c in
  items c' = <[key := mkItem value (getExp now duration c) 1]> (items c) ∧
  len (items c') = len (items c) + 1 ∧
  minFreq c' = 1 ∧
  key ∈ bucket c' 1.
Proof.
  intros Hpos Hk Hlen c'. subst c'. rewrite Set_new_not_full by done.
  destruct (insertNew_fields key (mkItem value (getExp now duration c) 0) c) as (Hm & _).
  rewrite insertNew_items. split_and!.
  - done.
  - by apply len_insert_None.
  - done.
  - pose proof (insertNew_in key (mkItem value (getExp now duration c) 0) c 1 key) as Hin.
    unfold inBucket in Hin. apply Hin. by left.
Qed.

(** X18.  [Delete] frees a slot and forgets the count: on a store within its
    capacity, a [Set] of a key that is absent after a [Delete] evicts
    nothing, and a key that is deleted and set again starts over at
    frequency 1. *)
Theorem delete_frees_a_slot c key key' value duration now keyToDelete it :
  0 < size c → len (items c) ≤ size c → items c !! key = Some it →
  (key' = key ∨ items c !! key' = None) →
  let c1 := (Delete key c).2 in
  items (Set_ nil key' value duration now keyToDelete c1) =
    <[key' := mkItem value (getExp now duration c) 1]> (delete key (items c)).
Proof.
  intros Hpos Hlen Hk Hk' c1.
  assert (items c1 = delete key (items c) ∧ size c1 = size c ∧
          defaultExpiration c1 = defaultExpiration c) as (Hit & Hsz & Hde).
  { subst c1. rewrite Delete_unfold, Hk. cbv zeta. cbn [snd].
    destruct (removeKey_fields it key c) as (_ & ? & ? & _).
    pose proof (removeKey_items it key c). by case_decide. }
  assert (getExp now duration c1 = getExp now duration c) as Hexp
    by (unfold getExp; by rewrite Hde).
  rewrite Set_new_not_full.
  - by rewrite insertNew_items, Hit, Hexp.
  - lia.
  - rewrite Hit. destruct Hk' as [->|Hk']; [apply lookup_delete_eq|].
    destruct (decide (key' = key)) as [->|]; [apply lookup_delete_eq|].
    by rewrite lookup_delete_ne.
  - rewrite Hit, Hsz, len_delete_Some by eauto. lia.
Qed.

(** X12.  The eviction is least-frequently-used: in a state reached by a
    history of at most [2^64 - 1] operations, when [Set] inserts a new key
    on a full store, the entry it removes has a frequency that no stored
    entry is below. *)
Theorem eviction_is_least_frequent sz defaultExp cleanup ops key value duration now keyToDelete :
  let c := run nil (NewInMemoryCache sz defaultExp cleanup) ops in
  let o : Op V Heap := OpSet key value duration now keyToDelete in
  0 < sz →
  Z.of_nat (length ops) ≤ MaxUint64 →
  historyOk nil (NewInMemoryCache sz defaultExp cleanup) (ops ++ [o]) →
  items c !! key = None →
  size c ≤ len (items c) →
  ∃ victim, items c !! keyToDelete = Some victim ∧
            items (step nil c o) !! keyToDelete = None ∧
            ∀ k it, items c !! k = Some it → Frequency victim ≤ Frequency it.
Proof.
  intros c o Hpos Hlen Hok Hk Hfull.
  apply historyOk_app in Hok as [Hok [Hv _]]. fold c in Hv. cbn [opOk o] in Hv.
  destruct (run_capInv nil sz defaultExp cleanup ops Hpos Hok) as [Hc Hs]. fold c in Hc, Hs.
  destruct (run_structOk nil sz defaultExp cleanup ops Hlen Hok) as [[Hi Hm] _].
  fold c in Hi, Hm.
  destruct (Set_evicts nil key value duration now keyToDelete c) as (Hin & _ & Hne & Hit & _);
    [lia|done..|].
  destruct Hi as ([Hsound _] & Hcomplete & _).
  destruct (Hsound _ _ Hin) as (victim & Hvk & Hvf).
  exists victim. split; [done|]. split.
  - subst o. cbn [step]. by rewrite Hit, lookup_insert_ne, lookup_delete_eq.
  - intros k it Hkit. rewrite Hvf.
    destruct Hm as [_ Hlb]. { intros E. by rewrite E, lookup_empty in Hkit. }
    apply Hlb. eapply inBucket_has. by apply Hcomplete.
Qed.

(** ** What an operation leaves alone *)

Lemma updateLoop_present (isUpdated : V → Heap → bool) update exp visits c h k :
  is_Some (items c !! k) →
  is_Some (items (foldl (updateVisit isUpdated update exp) (c, h) visits).1 !! k).
Proof.
  revert c h. induction visits as [|[key t] visits IH]; intros c h Hk; [done|].
  cbn [foldl]. destruct (updateVisit isUpdated update exp (c, h) (key, t)) as [c1 h1] eqn:E.
  apply IH. replace c1 with (c1, h1).1 by done. rewrite <- E.
  destruct (decide (k = key)) as [->|]; [|by rewrite updateVisit_other].
  destruct Hk as [item Hkey]. rewrite updateVisit_unfold, Hkey.
  case_decide; cbn [fst]; [|by rewrite Hkey].
  rewrite upgradeItem_items, lookup_insert_eq. eauto.
Qed.

Lemma gcLoop_removed visits (st : InMemoryCache (V := V) * bool) k it :
  items st.1 !! k = Some it → items (foldl gcVisit st visits).1 !! k = None →
  ∃ t, (k, t) ∈ visits ∧ Expiration it < t.
Proof.
  revert st. induction visits as [|[key t] visits IH]; intros st Hk Hnone.
  { cbn in Hnone. congruence. }
  cbn [foldl] in Hnone. destruct (decide (k = key)) as [->|Hne].
  - destruct (decide (Expiration it < t)) as [He|He].
    + exists t. split; [by left|done].
    + destruct (IH (gcVisit st (key, t))) as (t' & Hin & Ht'); [|done|].
      * destruct st as [c fm]. cbn [fst] in Hk. by rewrite gcVisit_unfold, Hk, decide_False.
      * exists t'. split; [by right|done].
  - destruct (IH (gcVisit st (key, t))) as (t' & Hin & Ht'); [|done|].
    + by rewrite gcVisit_other.
    + exists t'. split; [by right|done].
Qed.

(** X13.  An entry that survives an operation is touched only by what
    addresses it.  [Set] of another key, [Get] of another key, [Delete] and
    a sweeper tick leave its item as it is; [Get] of the key keeps its value
    and expiration; [Update] keeps its stored value.  The stored value of a
    key is replaced by a [Set] of that key and by nothing else. *)
Theorem survivor_is_untouched c o k it it' :
  opOk c o → items c !! k = Some it → items (step nil c o) !! k = Some it' →
  match o with
  | OpSet key _ _ _ _ => key ≠ k → it' = it
  | OpGet key _ => Value it' = Value it ∧ Expiration it' = Expiration it ∧ (key ≠ k → it' = it)
  | OpDelete _ => it' = it
  | OpUpdate _ _ _ _ _ _ => Value it' = Value it
  | OpTick _ => it' = it
  end.
Proof.
  intros Ho Hk. destruct o as [key value duration now keyToDelete|key now|key|
                               isUpdated update duration now visits h|visits]; cbn [step].
  - intros Hk' Hne. apply Set_lookup_other in Hk'; [congruence|done].
  - destruct (decide (k = key)) as [->|Hne].
    + destruct (Get_lookup nil key now c it Hk) as [-> | ->]; intros [= <-]; done.
    + rewrite Get_lookup_other by done. intros ?. assert (it' = it) as -> by congruence. done.
  - intros Hk'. apply Delete_lookup in Hk'. congruence.
  - destruct Ho as [Hnd _]. unfold Update. cbn [fst].
    destruct (updateLoop_lookup isUpdated update (getExp now duration c) visits c h k it
                Hnd Hk) as [-> | ->]; intros [= <-]; done.
  - intros Hk'. apply gcTick_lookup in Hk'. congruence.
Qed.

(** X14.  Keys enter the store through [Set] only, and only on a cache of
    positive capacity: if a key is stored after an operation and was not
    before, the operation was a [Set] of that key. *)
Theorem only_set_adds_keys c o k :
  items c !! k = None → is_Some (items (step nil c o) !! k) →
  0 < size c ∧ ∃ value duration now keyToDelete, o = OpSet k value duration now keyToDelete.
Proof.
  intros Hk. destruct o as [key value duration now keyToDelete|key now|key|
                            isUpdated update duration now visits h|visits]; cbn [step].
  - intros [it' Hk']. destruct (decide (k = key)) as [->|Hne].
    + split; [|eauto]. destruct (decide (size c ≤ 0)) as [Hs|Hs]; [|lia].
      rewrite Set_unfold, decide_True in Hk' by done. congruence.
    + apply Set_lookup_other in Hk'; [congruence|done].
  - intros [it' Hk']. destruct (decide (k = key)) as [->|Hne].
    + rewrite Get_unfold, Hk in Hk'. cbn [snd] in Hk'. congruence.
    + rewrite Get_lookup_other in Hk' by done. congruence.
  - intros [it' Hk']. apply Delete_lookup in Hk'. congruence.
  - unfold Update. cbn [fst]. rewrite updateLoop_absent by done. by intros [].
  - intros [it' Hk']. apply gcTick_lookup in Hk'. congruence.
Qed.

(** X15.  Keys leave the store in three ways only: [Delete] of the key, the
    eviction of [Set] (a new key on a full store, the key being the one the
    eviction loop met), and a sweeper tick that visits the key after its
    expiration.  [Get] and [Update] never remove an entry, expired or
    not. *)
Theorem keys_leave_three_ways c o k it :
  items c !! k = Some it → items (step nil c o) !! k = None →
  match o with
  | OpSet key _ _ _ keyToDelete =>
      keyToDelete = k ∧ items c !! key = None ∧ size c ≤ len (items c)
  | OpDelete key => key = k
  | OpTick visits => ∃ t, (k, t) ∈ visits ∧ Expiration it < t
  | OpGet _ _ | OpUpdate _ _ _ _ _ _ => False
  end.
Proof.
  intros Hk. destruct o as [key value duration now keyToDelete|key now|key|
                            isUpdated update duration now visits h|visits]; cbn [step].
  - rewrite Set_unfold. case_decide; [congruence|]. cbv zeta.
    destruct (items c !! key) as [old|] eqn:Hkey.
    + rewrite upgradeItem_items. destruct (decide (k = key)) as [->|].
      * by rewrite lookup_insert_eq.
      * rewrite lookup_insert_ne by done. congruence.
    + rewrite insertNew_items. destruct (decide (k = key)) as [->|]; [congruence|].
      rewrite lookup_insert_ne by done. case_decide as Hfull; [|congruence].
      rewrite evict_unfold. case_decide; [congruence|]. rewrite removeKey_items.
      destruct (decide (k = keyToDelete)) as [->|]; [done|].
      rewrite lookup_delete_ne by done. congruence.
  - destruct (decide (k = key)) as [->|Hne].
    + destruct (Get_lookup nil key now c it Hk) as [-> | ->]; done.
    + rewrite Get_lookup_other by done. congruence.
  - rewrite Delete_unfold. destruct (items c !! key) as [item|] eqn:Hkey; [|cbn; congruence].
    cbv zeta. cbn [snd]. intros Hnone.
    assert (items (removeKey item key c) !! k = None) as Hrem by (by case_decide).
    rewrite removeKey_items in Hrem. destruct (decide (key = k)) as [|Hne]; [done|].
    rewrite lookup_delete_ne in Hrem by done. congruence.
  - unfold Update. cbn [fst]. intros Hnone.
    destruct (updateLoop_present isUpdated update (getExp now duration c) visits c h k)
      as [x Hx]; [eauto|]. congruence.
  - rewrite gcTick_items. by apply gcLoop_removed.
Qed.

(** ** The index, whatever the counters do *)

(** X16.  After any history, on a cache of any capacity, every key listed in
    a bucket is stored with the frequency of that bucket, so that no key is
    in two buckets, and the index holds no empty bucket.  Unlike the converse
    (a stored key is listed), this needs no bound on the history. *)
Theorem index_is_sound sz defaultExp cleanup ops :
  historyOk nil (NewInMemoryCache sz defaultExp cleanup) ops →
  let c := run nil (NewInMemoryCache sz defaultExp cleanup) ops in
  (∀ f k, k ∈ bucket c f → ∃ it, items c !! k = Some it ∧ Frequency it = f) ∧
  (∀ f g k, k ∈ bucket c f → k ∈ bucket c g → f = g) ∧
  (∀ f, freqGroup c !! f ≠ Some ∅).
Proof.
  intros Hok c.
  assert (repOk c) as [Hs Hn].
  { subst c. destruct (decide (0 < sz)) as [Hpos|Hneg].
    - by destruct (run_capInv nil sz defaultExp cleanup ops Hpos Hok) as [[? _] _].
    - rewrite run_on_empty_nonpositive by (done || (cbn; lia)).
      by destruct (New_structOk (V := V) sz defaultExp cleanup) as [[[? _] _] _]. }
  split_and!.
  - exact Hs.
  - intros f g k Hf Hg. destruct (Hs _ _ Hf) as (it & Hit & <-).
    destruct (Hs _ _ Hg) as (it' & Hit' & <-). congruence.
  - intros f Hf. destruct (Hn f) as [k Hk]; [by eexists|].
    unfold inBucket, bucket in Hk. rewrite Hf in Hk. set_solver.
Qed.

(** ** Counting hits *)

(** X17.  The frequency counts the hits: [n] reads of a key, none after its
    expiration, all return its value and leave it with its frequency raised
    by [n] modulo [2^64] and its value and expiration as they were. *)
Theorem hits_are_counted times c key it :
  items c !! key = Some it →
  0 ≤ Frequency it < 2 ^ 64 →
  Forall (λ t, ¬ Expiration it < t) times →
  let ops : list (Op V Heap) := OpGet key <$> times in
  items (run nil c ops) !! key =
    Some (with_Frequency ((Frequency it + Z.of_nat (length times)) mod 2 ^ 64) it) ∧
  ∀ i o, ops !! i = Some o →
    match o with
    | OpGet key' now => (Get nil key' now (run nil c (take i ops))).1 = (Value it, true)
    | _ => False
    end.
Proof.
  revert c it. induction times as [|t times IH]; intros c it Hk Hf Hlive ops.
  - subst ops. cbn [fmap list_fmap run foldl length]. split.
    + rewrite Z.add_0_r, Z.mod_small by done. by destruct it.
    + intros i o. by rewrite lookup_nil.
  - apply Forall_cons in Hlive as [Ht Hlive]. subst ops. rewrite fmap_cons.
    cbn [run foldl step length].
    destruct (Get_lookup_hit nil key t c it Hk Ht) as [Hres Hk1].
    set (it1 := with_Frequency (u64_succ (Frequency it)) it) in *.
    destruct (IH (Get nil key t c).2 it1 Hk1) as [Hfin Hall].
    { cbn. apply Z.mod_pos_bound. done. }
    { done. }
    unfold run in Hfin, Hall |- *. cbn [foldl step]. split.
    + rewrite Hfin.
      f_equal. unfold it1, with_Frequency. cbn [Value Expiration Frequency]. f_equal.
      unfold u64_succ. rewrite Zplus_mod_idemp_l. f_equal. lia.
    + intros [|i] o.
      * cbn. intros [= <-]. by rewrite Hres.
      * cbn [lookup list_lookup take]. intros Ho. specialize (Hall i o Ho).
        cbn [foldl step]. exact Hall.
Qed.

End Further.

(** * The further properties at concrete inputs *)

Section FurtherWitnesses.

Lemma empty_store_operations_witness :
  items scenarioCache = ∅ ∧
  Get 0 "a" 3 scenarioCache = ((0, false), scenarioCache) ∧
  Delete "a" scenarioCache = (Some "Key not found"%string, scenarioCache) ∧
  gcTick [("a"%string, 5)] scenarioCache = scenarioCache.
Proof.
  split; [reflexivity|].
  destruct (empty_store_operations (Heap := Z) 0 scenarioCache) as (Hg & Hd & _ & Ht);
    [reflexivity|].
  split; [apply Hg|]. split; [apply Hd|apply Ht].
Defined.

Lemma nonpositive_capacity_stores_nothing_witness :
  0 ≤ 0 ∧
  run 0 (NewInMemoryCache 0 1000 1) scenarioOps = NewInMemoryCache 0 1000 1.
Proof.
  split; [lia|].
  apply (nonpositive_capacity_stores_nothing (Heap := Z) 0 0 1000 1 scenarioOps). lia.
Defined.

Lemma sweeper_removes_the_expired_witness :
  let visits := [("a"%string, 2000); ("b"%string, 500)] in
  rangeWalk (items fullCache) visits ∧
  (∃ t, ("a"%string, t) ∈ visits ∧
        items (gcTick visits fullCache) !! "a"%string =
          if decide (1000 < t) then None else Some (mkItem 1 1000 2)) ∧
  (∃ t, ("b"%string, t) ∈ visits ∧
        items (gcTick visits fullCache) !! "b"%string =
          if decide (1000 < t) then None else Some (mkItem 2 1000 1)).
Proof.
  intros visits.
  assert (rangeWalk (items fullCache) visits) as Hw by compute_done.
  split; [exact Hw|].
  destruct (sweeper_removes_the_expired visits fullCache Hw) as [Hs _].
  split.
  - apply (Hs "a"%string (mkItem 1 1000 2)). compute_done.
  - apply (Hs "b"%string (mkItem 2 1000 1)). compute_done.
Defined.

Lemma fullCache_live_at_3 k t it :
  (k, t) ∈ [("a"%string, 3); ("b"%string, 3)] → items fullCache !! k = Some it →
  ¬ Expiration it < t.
Proof.
  intros Hin. inversion Hin as [|? ? ? Hin2]; subst.
  - intros Hk.
    assert (items fullCache !! "a"%string = Some (mkItem 1 1000 2)) as Ha by compute_done.
    assert (it = mkItem 1 1000 2) as -> by congruence. cbn [Expiration]. lia.
  - inversion Hin2 as [|? ? ? Hin3]; subst; [|inversion Hin3].
    intros Hk.
    assert (items fullCache !! "b"%string = Some (mkItem 2 1000 1)) as Hb by compute_done.
    assert (it = mkItem 2 1000 1) as -> by congruence. cbn [Expiration]. lia.
Qed.

Lemma sweeper_without_expired_is_noop_witness :
  gcTick [("a"%string, 3); ("b"%string, 3)] fullCache = fullCache.
Proof.
  apply (sweeper_without_expired_is_noop [("a"%string, 3); ("b"%string, 3)] fullCache).
  exact fullCache_live_at_3.
Defined.

Lemma fullCache_structOk : structOk fullCache.
Proof.
  destruct (run_structOk (Heap := Z) 0 2 1000 1 (take 3 scenarioOps)) as [Hc _];
    [compute_done|compute_done|exact Hc].
Qed.

Lemma sweeper_keeps_invariant_witness :
  minConsistent (gcTick [("a"%string, 2000); ("b"%string, 500)] fullCache) ∧
  membershipConsistent (gcTick [("a"%string, 2000); ("b"%string, 500)] fullCache).
Proof.
  destruct (sweeper_keeps_invariant [("a"%string, 2000); ("b"%string, 500)] fullCache
              fullCache_structOk) as (_ & Hm & Hb & _).
  split; [exact Hm|exact Hb].
Defined.

Lemma fullCache_no_match k t it :
  (k, t) ∈ [("a"%string, 3); ("b"%string, 2000)] → items fullCache !! k = Some it →
  bool_decide (Value it = 5) = false ∨ Expiration it < t.
Proof.
  intros Hin. inversion Hin as [|? ? ? Hin2]; subst.
  - intros Hk.
    assert (items fullCache !! "a"%string = Some (mkItem 1 1000 2)) as Ha by compute_done.
    assert (it = mkItem 1 1000 2) as -> by congruence. left. reflexivity.
  - inversion Hin2 as [|? ? ? Hin3]; subst; [|inversion Hin3].
    intros Hk.
    assert (items fullCache !! "b"%string = Some (mkItem 2 1000 1)) as Hb by compute_done.
    assert (it = mkItem 2 1000 1) as -> by congruence. right. cbn [Expiration]. lia.
Qed.

Lemma update_without_match_is_noop_witness :
  Update (λ v (_ : Z), bool_decide (v = 5)) (λ v h, h + v) 0 3
         [("a"%string, 3); ("b"%string, 2000)] (fullCache, 0) = (fullCache, 0).
Proof.
  apply (update_without_match_is_noop (λ v (_ : Z), bool_decide (v = 5)) (λ v h, h + v) 0 3
           [("a"%string, 3); ("b"%string, 2000)] fullCache 0).
  exact fullCache_no_match.
Defined.

Lemma expired_entry_lingers_witness :
  0 < size fullCache ∧ 2 + 10 < 20 ∧
  Get 0 "c" 20 (Set_ 0 "c" 3 10 2 "b" fullCache) = ((0, false), Set_ 0 "c" 3 10 2 "b" fullCache).
Proof.
  split; [compute_done|]. split; [lia|].
  apply (expired_entry_lingers 0 fullCache "c" 3 10 2 20 "b"); compute_done.
Defined.

Lemma overwrite_never_evicts_witness :
  size fullCache ≤ len (items fullCache) ∧
  dom (items (Set_ 0 "a" 9 0 2 "b" fullCache)) = dom (items fullCache) ∧
  len (items (Set_ 0 "a" 9 0 2 "b" fullCache)) = len (items fullCache).
Proof.
  split; [compute_done|].
  apply (overwrite_never_evicts 0 fullCache "a" 9 0 2 "b" (mkItem 1 1000 2)); compute_done.
Defined.

Lemma insert_below_capacity_witness :
  let c := run (Heap := Z) 0 scenarioCache (take 1 scenarioOps) in
  len (items c) < size c ∧
  len (items (Set_ 0 "b" 2 0 0 "a" c)) = len (items c) + 1 ∧
  minFreq (Set_ 0 "b" 2 0 0 "a" c) = 1.
Proof.
  intros c. split; [compute_done|].
  destruct (insert_below_capacity 0 c "b" 2 0 0 "a") as (_ & Hl & Hm & _);
    [compute_done..|].
  split; [exact Hl|exact Hm].
Defined.

Lemma eviction_is_least_frequent_witness :
  ∃ victim, items fullCache !! "b"%string = Some victim ∧
            ∀ k it, items fullCache !! k = Some it → Frequency victim ≤ Frequency it.
Proof.
  destruct (eviction_is_least_frequent (Heap := Z) 0 2 1000 1 (take 3 scenarioOps)
              "c" 3 0 2 "b") as (victim & Hv & _ & Hleast);
    [lia|compute_done|compute_done|compute_done|compute_done|].
  exists victim. split; [exact Hv|exact Hleast].
Defined.

Lemma survivor_is_untouched_witness :
  items fullCache !! "b"%string = Some (mkItem 2 1000 1) ∧
  (∀ it', items (step (Heap := Z) 0 fullCache (OpGet "a" 3)) !! "b"%string = Some it' →
          it' = mkItem 2 1000 1).
Proof.
  assert (items fullCache !! "b"%string = Some (mkItem 2 1000 1)) as Hb by compute_done.
  split; [exact Hb|]. intros it' Hk.
  assert ("a"%string ≠ "b"%string) as Hne by discriminate.
  apply (survivor_is_untouched (Heap := Z) 0 fullCache (OpGet "a" 3) "b"
           (mkItem 2 1000 1) it'); [exact I|exact Hb|exact Hk|exact Hne].
Defined.

Lemma only_set_adds_keys_witness :
  items fullCache !! "c"%string = None ∧
  0 < size fullCache ∧
  ∃ value duration now keyToDelete,
    (OpSet "c" 3 0 2 "b" : Op Z Z) = OpSet "c" value duration now keyToDelete.
Proof.
  split; [compute_done|].
  apply (only_set_adds_keys (Heap := Z) 0 fullCache (OpSet "c" 3 0 2 "b") "c"); compute_done.
Defined.

Lemma keys_leave_three_ways_witness :
  items (step (Heap := Z) 0 fullCache (OpSet "c" 3 0 2 "b")) !! "b"%string = None ∧
  "b"%string = "b"%string ∧ items fullCache !! "c"%string = None ∧
  size fullCache ≤ len (items fullCache).
Proof.
  split; [compute_done|].
  apply (keys_leave_three_ways (Heap := Z) 0 fullCache (OpSet "c" 3 0 2 "b") "b"
           (mkItem 2 1000 1)); compute_done.
Defined.

Lemma index_is_sound_witness :
  historyOk 0 scenarioCache scenarioOps ∧
  ∀ f g k, k ∈ bucket (run 0 scenarioCache scenarioOps) f →
           k ∈ bucket (run 0 scenarioCache scenarioOps) g → f = g.
Proof.
  assert (historyOk 0 scenarioCache scenarioOps) as Hok by compute_done.
  split; [exact Hok|].
  destruct (index_is_sound (Heap := Z) 0 2 1000 1 scenarioOps Hok) as (_ & Hone & _).
  exact Hone.
Defined.

Lemma hits_are_counted_witness :
  items (run (Heap := Z) 0 fullCache (OpGet "a" <$> [3; 4; 5])) !! "a"%string =
    Some (with_Frequency ((2 + Z.of_nat 3) mod 2 ^ 64) (mkItem 1 1000 2)).
Proof.
  destruct (hits_are_counted (Heap := Z) 0 [3; 4; 5] fullCache "a" (mkItem 1 1000 2))
    as [Hfreq _]; [compute_done|compute_done|compute_done|].
  exact Hfreq.
Defined.

Lemma delete_frees_a_slot_witness :
  0 < size fullCache ∧ len (items fullCache) ≤ size fullCache ∧
  items (Set_ 0 "b" 8 0 5 "a" (Delete "b" fullCache).2) =
    <["b"%string := mkItem 8 (getExp 5 0 fullCache) 1]> (delete "b"%string (items fullCache)).
Proof.
  split; [compute_done|]. split; [compute_done|].
  apply (delete_frees_a_slot 0 fullCache "b" "b" 8 0 5 "a" (mkItem 2 1000 1));
    [compute_done|compute_done|compute_done|left; reflexivity].
Defined.

End FurtherWitnesses.
